(** * A price-time priority limit order book: model and verification

    Shallow embedding of [src/common/types.hpp], [src/engine/OrderBook.cpp]
    and the worker loop of [src/engine/MatchingEngine.cpp].

    Conventions of the embedding.
    - [uint64_t] values are integers in [Z]; every arithmetic update the source
      performs on them is written with its wrap-around ([wrap64]).
    - [std::map<Price, Level, Compare>] is a list of [(key, level)] pairs kept in
      the iteration order of the map; [begin()] is the head of the list.
    - [std::unordered_map<OrderId, OrderLocation>] is a [gmap].
    - A [std::list<Order>] node has an identity that survives insertions and
      removals of its neighbours; the stored [std::list<Order>::iterator] is
      modelled by a node reference ([NodeRef]) and every node of a FIFO carries
      its reference.  Allocation of a node takes the next unused reference.
    - The [timestamp] members are wall-clock readings that no branch of the
      engine inspects; they are left out of [Order] and [Trade]. *)

From stdpp Require Import gmap list sorting.
From Stdlib Require Import ZArith Lia Sorting.Sorted.

Local Open Scope Z_scope.

(** ** common/types.hpp *)

(** [using Price = uint64_t], [using Quantity = uint64_t] and
    [using OrderId = uint64_t] are aliases of one type. *)
Abbreviation Price := Z (only parsing).
Abbreviation Quantity := Z (only parsing).
Abbreviation OrderId := Z (only parsing).

Definition U64_MODULUS : Z := 2 ^ 64.

(** Reduction of an integer to the range of [uint64_t]. *)
Definition wrap64 (z : Z) : Z := z mod U64_MODULUS.

(** Membership in the range of [uint64_t]. *)
Definition u64 (z : Z) : Prop := 0 <= z < U64_MODULUS.

Inductive Side := Buy | Sell.

Record Order := mkOrder {
  Order_id : OrderId;
  Order_side : Side;
  Order_price : Price;
  Order_initialQuantity : Quantity;
  Order_remainingQuantity : Quantity
}.

(** The constructor [Order(id, side, price, qty)]. *)
Definition newOrder (id : OrderId) (side : Side) (price : Price) (qty : Quantity) : Order :=
  mkOrder id side price qty qty.

Definition isFilled (o : Order) : bool := Order_remainingQuantity o =? 0.

Definition setRemaining (o : Order) (q : Quantity) : Order :=
  mkOrder (Order_id o) (Order_side o) (Order_price o) (Order_initialQuantity o) q.

Record Trade := mkTrade {
  Trade_price : Price;
  Trade_quantity : Quantity;
  Trade_makerOrderId : OrderId;
  Trade_takerOrderId : OrderId
}.

Record LevelInfo := mkLevelInfo {
  LevelInfo_price : Price;
  LevelInfo_quantity : Quantity
}.

(** ** engine/OrderBook.hpp *)

Abbreviation NodeRef := nat (only parsing).

(** A node of [std::list<Order>]: its identity and the order it stores. *)
Abbreviation Node := (nat * Order)%type (only parsing).

Record Level := mkLevel {
  Level_price : Price;
  Level_totalVolume : Quantity;
  Level_orders : list Node
}.

(** [Level()] *)
Definition Level_default : Level := mkLevel 0 0 [].

Record OrderLocation := mkOrderLocation {
  OrderLocation_side : Side;
  OrderLocation_price : Price;
  OrderLocation_iterator : NodeRef
}.

Abbreviation BookSide := (list (Z * Level)) (only parsing).

Record OrderBook := mkOrderBook {
  bids : BookSide;
  asks : BookSide;
  orderLookup : gmap Z OrderLocation;
  nextNode : NodeRef
}.

(** [OrderBook::OrderBook()] *)
Definition emptyBook : OrderBook := mkOrderBook [] [] ∅ 0%nat.

(** *** The operations of [std::map] and [std::list] the engine uses *)

(** [std::greater<Price>] and [std::less<Price>]. *)
Definition greater (a b : Price) : bool := a >? b.
Definition less (a b : Price) : bool := a <? b.

(** [book.find(k)] *)
Fixpoint map_find (k : Price) (book : BookSide) : option Level :=
  match book with
  | [] => None
  | (k', level) :: rest => if k =? k' then Some level else map_find k rest
  end.

(** [book.erase(book.find(k))] *)
Fixpoint map_erase (k : Price) (book : BookSide) : BookSide :=
  match book with
  | [] => []
  | (k', level) :: rest =>
      if k =? k' then rest else (k', level) :: map_erase k rest
  end.

(** Assignment through a reference to the level stored under [k]. *)
Fixpoint map_update (k : Price) (v : Level) (book : BookSide) : BookSide :=
  match book with
  | [] => []
  | (k', level) :: rest =>
      if k =? k' then (k', v) :: rest else (k', level) :: map_update k v rest
  end.

(** The insertion half of [book[k]]: a default level is created under [k],
    at the place the comparator [comp] gives it, when the key is absent. *)
Fixpoint map_subscript (comp : Price -> Price -> bool) (k : Price) (book : BookSide)
  : BookSide :=
  match book with
  | [] => [(k, Level_default)]
  | (k', level) :: rest =>
      if k =? k' then book
      else if comp k k' then (k, Level_default) :: book
      else (k', level) :: map_subscript comp k rest
  end.

(** [*it] for a list iterator: the order stored in the node [it]. *)
Fixpoint node_deref (it : NodeRef) (fifo : list Node) : option Order :=
  match fifo with
  | [] => None
  | (r, o) :: rest => if Nat.eqb it r then Some o else node_deref it rest
  end.

(** [orders.erase(it)] *)
Fixpoint list_erase (it : NodeRef) (fifo : list Node) : list Node :=
  match fifo with
  | [] => []
  | (r, o) :: rest =>
      if Nat.eqb it r then rest else (r, o) :: list_erase it rest
  end.

(** [orders.empty()] *)
Definition fifo_empty (fifo : list Node) : bool :=
  match fifo with [] => true | _ => false end.

(** ** engine/OrderBook.cpp *)

(** The price check of [matchAgainstBook]. *)
Definition priceMatch (incoming : Order) (level_price : Price) : bool :=
  match Order_side incoming with
  | Buy => Order_price incoming >=? level_price
  | Sell => Order_price incoming <=? level_price
  end.

(** What the inner loop of [matchAgainstBook] leaves behind. *)
Record LevelWalk := mkLevelWalk {
  lw_trades : list Trade;
  lw_incoming : Order;
  lw_totalVolume : Quantity;
  lw_orders : list Node;
  lw_lookup : gmap Z OrderLocation
}.

(** The inner loop of [matchAgainstBook]: the walk over one level's FIFO from
    its head.  [trades.push_back] happens before the rest of the loop, so the
    trade of this iteration precedes the trades of the remaining ones. *)
Fixpoint matchLevel (level_price : Price) (fifo : list Node) (incoming : Order)
    (totalVolume : Quantity) (lookup : gmap Z OrderLocation) : LevelWalk :=
  match fifo with
  | [] => mkLevelWalk [] incoming totalVolume [] lookup
  | (it, bookOrder) :: rest =>
      if isFilled incoming then mkLevelWalk [] incoming totalVolume fifo lookup
      else
        let tradeQty :=
          Z.min (Order_remainingQuantity incoming) (Order_remainingQuantity bookOrder) in
        let trade := mkTrade level_price tradeQty (Order_id bookOrder) (Order_id incoming) in
        let incoming' :=
          setRemaining incoming (wrap64 (Order_remainingQuantity incoming - tradeQty)) in
        let bookOrder' :=
          setRemaining bookOrder (wrap64 (Order_remainingQuantity bookOrder - tradeQty)) in
        let totalVolume' := wrap64 (totalVolume - tradeQty) in
        if isFilled bookOrder' then
          let w := matchLevel level_price rest incoming' totalVolume'
                     (delete (Order_id bookOrder') lookup) in
          mkLevelWalk (trade :: lw_trades w) (lw_incoming w) (lw_totalVolume w)
            (lw_orders w) (lw_lookup w)
        else
          let w := matchLevel level_price rest incoming' totalVolume' lookup in
          mkLevelWalk (trade :: lw_trades w) (lw_incoming w) (lw_totalVolume w)
            ((it, bookOrder') :: lw_orders w) (lw_lookup w)
  end.

(** What [matchAgainstBook] leaves behind. *)
Record BookWalk := mkBookWalk {
  bw_trades : list Trade;
  bw_incoming : Order;
  bw_book : BookSide;
  bw_lookup : gmap Z OrderLocation
}.

(** [OrderBook::matchAgainstBook]: the outer loop over the levels of the
    opposite side, best price first. *)
Fixpoint matchAgainstBook (incoming : Order) (book : BookSide)
    (lookup : gmap Z OrderLocation) : BookWalk :=
  match book with
  | [] => mkBookWalk [] incoming [] lookup
  | (k, level) :: rest =>
      if isFilled incoming then mkBookWalk [] incoming book lookup
      else if negb (priceMatch incoming (Level_price level)) then
        mkBookWalk [] incoming book lookup
      else
        let w := matchLevel (Level_price level) (Level_orders level) incoming
                   (Level_totalVolume level) lookup in
        let level' := mkLevel (Level_price level) (lw_totalVolume w) (lw_orders w) in
        if fifo_empty (lw_orders w) then
          let r := matchAgainstBook (lw_incoming w) rest (lw_lookup w) in
          mkBookWalk (lw_trades w ++ bw_trades r) (bw_incoming r) (bw_book r) (bw_lookup r)
        else
          let r := matchAgainstBook (lw_incoming w) rest (lw_lookup w) in
          mkBookWalk (lw_trades w ++ bw_trades r) (bw_incoming r)
            ((k, level') :: bw_book r) (bw_lookup r)
  end.

(** [OrderBook::match]: the incoming order after matching, the trades, and the
    book with the opposite side and the index updated. *)
Definition match_ (b : OrderBook) (incoming : Order) : list Trade * Order * OrderBook :=
  match Order_side incoming with
  | Buy =>
      let w := matchAgainstBook incoming (asks b) (orderLookup b) in
      (bw_trades w, bw_incoming w, mkOrderBook (bids b) (bw_book w) (bw_lookup w) (nextNode b))
  | Sell =>
      let w := matchAgainstBook incoming (bids b) (orderLookup b) in
      (bw_trades w, bw_incoming w, mkOrderBook (bw_book w) (asks b) (bw_lookup w) (nextNode b))
  end.

(** [orderLookup.insert({id, loc})]: an existing entry is not overwritten. *)
Definition lookup_insert_new (id : OrderId) (loc : OrderLocation)
    (lookup : gmap Z OrderLocation) : gmap Z OrderLocation :=
  match lookup !! id with
  | Some _ => lookup
  | None => <[id := loc]> lookup
  end.

(** The body of [addToBook] on the level [book[order.price]] refers to: the
    price is initialised when the volume is zero, the order is appended in a
    new node [it], and the volume grows by the order's remaining quantity. *)
Definition level_push (order : Order) (it : NodeRef) (level : Level) : Level :=
  let price := if Level_totalVolume level =? 0 then Order_price order
               else Level_price level in
  mkLevel price
    (wrap64 (Level_totalVolume level + Order_remainingQuantity order))
    (Level_orders level ++ [(it, order)]).

(** [OrderBook::addToBook] on the side ordered by [comp]; the new node takes
    the reference [it], which is what the index entry stores. *)
Definition addToBook (comp : Price -> Price -> bool) (order : Order) (it : NodeRef)
    (book : BookSide) (lookup : gmap Z OrderLocation)
  : BookSide * gmap Z OrderLocation :=
  let book1 := map_subscript comp (Order_price order) book in
  let book2 :=
    match map_find (Order_price order) book1 with
    | Some level => map_update (Order_price order) (level_push order it level) book1
    | None => book1
    end in
  (book2,
   lookup_insert_new (Order_id order)
     (mkOrderLocation (Order_side order) (Order_price order) it) lookup).

(** [OrderBook::addOrder], together with the final value of its local [order]. *)
Definition addOrder_run (b : OrderBook) (order : Order) : list Trade * Order * OrderBook :=
  match orderLookup b !! Order_id order with
  | Some _ => ([], order, b)
  | None =>
      let '(trades, order', b1) := match_ b order in
      if negb (isFilled order') then
        let it := nextNode b1 in
        match Order_side order' with
        | Buy =>
            let '(bids', lookup') := addToBook greater order' it (bids b1) (orderLookup b1) in
            (trades, order', mkOrderBook bids' (asks b1) lookup' (S it))
        | Sell =>
            let '(asks', lookup') := addToBook less order' it (asks b1) (orderLookup b1) in
            (trades, order', mkOrderBook (bids b1) asks' lookup' (S it))
        end
      else (trades, order', b1)
  end.

(** [OrderBook::addOrder]: the returned trades and the book afterwards. *)
Definition addOrder (b : OrderBook) (order : Order) : list Trade * OrderBook :=
  let '(trades, _, b') := addOrder_run b order in (trades, b').

(** The branch of [cancelOrder] for one side: the level is found by price, its
    volume is debited by the remaining quantity read through the iterator, the
    node is erased, and the level is erased when its FIFO became empty.  The
    source skips the update when no level has the price.  Reading through an
    iterator whose node is gone has no defined behaviour in the source; the
    model leaves the side as it is, and [iterator_valid] below shows that a
    reachable book never gets there. *)
Definition cancelInSide (loc : OrderLocation) (book : BookSide) : BookSide :=
  match map_find (OrderLocation_price loc) book with
  | None => book
  | Some level =>
      match node_deref (OrderLocation_iterator loc) (Level_orders level) with
      | None => book
      | Some o =>
          let level' :=
            mkLevel (Level_price level)
              (wrap64 (Level_totalVolume level - Order_remainingQuantity o))
              (list_erase (OrderLocation_iterator loc) (Level_orders level)) in
          if fifo_empty (Level_orders level')
          then map_erase (OrderLocation_price loc) book
          else map_update (OrderLocation_price loc) level' book
      end
  end.

(** [OrderBook::cancelOrder] *)
Definition cancelOrder (b : OrderBook) (orderId : OrderId) : bool * OrderBook :=
  match orderLookup b !! orderId with
  | None => (false, b)
  | Some loc =>
      match OrderLocation_side loc with
      | Buy =>
          (true, mkOrderBook (cancelInSide loc (bids b)) (asks b)
                   (delete orderId (orderLookup b)) (nextNode b))
      | Sell =>
          (true, mkOrderBook (bids b) (cancelInSide loc (asks b))
                   (delete orderId (orderLookup b)) (nextNode b))
      end
  end.

(** [OrderBook::getBids] and [OrderBook::getAsks]: the key of each entry with
    the volume of its level, in iteration order. *)
Definition levelInfos (book : BookSide) : list LevelInfo :=
  map (fun kl => mkLevelInfo (fst kl) (Level_totalVolume (snd kl))) book.

Definition getBids (b : OrderBook) : list LevelInfo := levelInfos (bids b).
Definition getAsks (b : OrderBook) : list LevelInfo := levelInfos (asks b).

(** ** engine/MatchingEngine.cpp *)

Inductive CommandType := Add | Cancel | Stop.

Record Command := mkCommand {
  Command_type : CommandType;
  Command_order : option Order;
  Command_orderId : option OrderId
}.

(** An invocation of a registered callback, as an observer sees it. *)
Inductive Event :=
| TradeEvent (trades : list Trade)
| BookUpdateEvent.

(** The engine as the worker sees it.  A [std::function] member is either
    empty or holds a callback; [onTrade] and [onBookUpdate] record which. *)
Record MatchingEngine := mkMatchingEngine {
  orderBook : OrderBook;
  running : bool;
  onTrade : bool;
  onBookUpdate : bool
}.

(** [MatchingEngine::MatchingEngine()] followed by the registration of the
    callbacks and [start()]. *)
Definition startedEngine (tradeCb bookCb : bool) : MatchingEngine :=
  mkMatchingEngine emptyBook true tradeCb bookCb.

(** The body of the worker loop for a command other than [Stop]: the events
    it fires, in order, and the engine afterwards.  [cmd.order] is the copy held
    by the command; [addOrder] receives its argument by value. *)
Definition processCommand (e : MatchingEngine) (cmd : Command)
  : list Event * MatchingEngine :=
  let '(events, bookChanged, book') :=
    match Command_type cmd, Command_order cmd, Command_orderId cmd with
    | Add, Some order, _ =>
        let '(trades, book') := addOrder (orderBook e) order in
        let traded := negb (match trades with [] => true | _ => false end) in
        let events := if traded && onTrade e then [TradeEvent trades] else [] in
        let bookChanged := if negb (isFilled order) then true else traded in
        (events, bookChanged, book')
    | Cancel, _, Some orderId =>
        let '(found, book') := cancelOrder (orderBook e) orderId in
        ([], found, book')
    | _, _, _ => ([], false, orderBook e)
    end in
  (events ++ (if bookChanged && onBookUpdate e then [BookUpdateEvent] else []),
   mkMatchingEngine book' (running e) (onTrade e) (onBookUpdate e)).

(** [MatchingEngine::run] over the commands in the order they were enqueued.
    The worker waits when the queue is exhausted and leaves at [Stop]. *)
Fixpoint run (e : MatchingEngine) (queue : list Command) : list Event * MatchingEngine :=
  match queue with
  | [] => ([], e)
  | cmd :: rest =>
      if running e then
        match Command_type cmd with
        | Stop => ([], e)
        | _ =>
            let '(events, e') := processCommand e cmd in
            let '(later, e'') := run e' rest in
            (events ++ later, e'')
        end
      else ([], e)
  end.

(** [MatchingEngine::addOrder] and [MatchingEngine::cancelOrder] build these. *)
Definition AddCommand (order : Order) : Command := mkCommand Add (Some order) None.
Definition CancelCommand (orderId : OrderId) : Command := mkCommand Cancel None (Some orderId).

(** * Specification vocabulary *)

(** Every member of an order the engine receives is a [uint64_t]. *)
Definition u64_order (o : Order) : Prop :=
  u64 (Order_id o) /\ u64 (Order_price o) /\
  u64 (Order_initialQuantity o) /\ u64 (Order_remainingQuantity o).

(** The book states the public operations can produce. *)
Inductive reachable : OrderBook -> Prop :=
| reachable_empty : reachable emptyBook
| reachable_add b o : reachable b -> u64_order o -> reachable (addOrder b o).2
| reachable_cancel b orderId : reachable b -> reachable (cancelOrder b orderId).2.

Definition keys (book : BookSide) : list Price := book.*1.

(** The resting orders of a side, best level first and FIFO order within a
    level. *)
Definition resting (book : BookSide) : list Order :=
  flat_map (fun kl => (Level_orders kl.2).*2) book.

(** The remaining quantity held by the nodes of a FIFO, as an integer. *)
Definition sum_remaining (fifo : list Node) : Z :=
  foldr (fun n acc => Order_remainingQuantity n.2 + acc) 0 fifo.

(** The remaining quantity resting on a side, as an integer. *)
Definition side_remaining (book : BookSide) : Z :=
  foldr (fun kl acc => sum_remaining (Level_orders kl.2) + acc) 0 book.

Definition sum_quantity (ts : list Trade) : Z :=
  foldr (fun t acc => Trade_quantity t + acc) 0 ts.

(** The index entry a resting node should have. *)
Definition node_entry (s : Side) (k : Price) (n : Node) : OrderId * OrderLocation :=
  (Order_id n.2, mkOrderLocation s k n.1).

Definition side_entries (s : Side) (book : BookSide) : list (OrderId * OrderLocation) :=
  flat_map (fun kl => map (node_entry s kl.1) (Level_orders kl.2)) book.

Definition book_entries (b : OrderBook) : list (OrderId * OrderLocation) :=
  side_entries Buy (bids b) ++ side_entries Sell (asks b).

(** The side an order of side [s] rests on, and the side it matches against. *)
Definition own_side (s : Side) (b : OrderBook) : BookSide :=
  match s with Buy => bids b | Sell => asks b end.

Definition opposite_side (s : Side) (b : OrderBook) : BookSide :=
  match s with Buy => asks b | Sell => bids b end.

(** The iteration order of a side: keys strictly ordered by its comparator. *)
Definition ordered_by (comp : Price -> Price -> bool) (book : BookSide) : Prop :=
  StronglySorted (fun a b => comp a b = true) (keys book).

(** What holds of every level that exists in a book whose next unused node
    reference is [next]. *)
Record level_ok (next : NodeRef) (k : Price) (L : Level) : Prop := mk_level_ok {
  lo_price : Level_price L = k;
  lo_nonempty : Level_orders L <> [];
  lo_remaining :
    Forall (fun n : Node => 0 < Order_remainingQuantity n.2 < U64_MODULUS) (Level_orders L);
  lo_volume : Level_totalVolume L = wrap64 (sum_remaining (Level_orders L));
  lo_refs : NoDup (Level_orders L).*1;
  lo_fresh : Forall (fun r : NodeRef => (r < next)%nat) (Level_orders L).*1
}.

Definition side_ok (comp : Price -> Price -> bool) (next : NodeRef) (book : BookSide) : Prop :=
  ordered_by comp book /\ Forall (fun kl => level_ok next kl.1 kl.2) book.

(** The index holds exactly the entries [E]. *)
Definition indexes (lookup : gmap Z OrderLocation) (E : list (OrderId * OrderLocation)) : Prop :=
  forall orderId loc, lookup !! orderId = Some loc <-> (orderId, loc) ∈ E.

Record book_inv (b : OrderBook) : Prop := mk_book_inv {
  inv_bids : side_ok greater (nextNode b) (bids b);
  inv_asks : side_ok less (nextNode b) (asks b);
  inv_ids : NoDup (book_entries b).*1;
  inv_index : indexes (orderLookup b) (book_entries b);
  inv_uncrossed :
    forall kb ka, kb ∈ keys (bids b) -> ka ∈ keys (asks b) -> kb < ka
}.

(** The largest and the smallest element of a list of prices. *)
Definition highest (ps : list Price) : option Price :=
  match ps with
  | [] => None
  | p :: rest => Some (foldr Z.max p rest)
  end.

Definition lowest (ps : list Price) : option Price :=
  match ps with
  | [] => None
  | p :: rest => Some (foldr Z.min p rest)
  end.

Definition bestBid (b : OrderBook) : option Price := highest (map LevelInfo_price (getBids b)).
Definition bestAsk (b : OrderBook) : option Price := lowest (map LevelInfo_price (getAsks b)).

(** * Notions used in the proofs *)

(** The index [lookup'] is [lookup] without the ids [gone]. *)
Definition index_without (lookup : gmap Z OrderLocation) (gone : list OrderId)
    (lookup' : gmap Z OrderLocation) : Prop :=
  forall i, lookup' !! i = if decide (i ∈ gone) then None else lookup !! i.

(** A resting node holds a positive remaining quantity within [uint64_t]. *)
Definition live (n : Node) : Prop := 0 < Order_remainingQuantity n.2 < U64_MODULUS.

(** What one run of the inner loop establishes. *)
Record walk_ok (p : Price) (fifo : list Node) (incoming : Order) (tv : Quantity)
    (lookup : gmap Z OrderLocation) (w : LevelWalk) : Prop := mk_walk_ok {
  wo_split :
    exists gone kept,
      fifo = gone ++ kept /\
      (forall s k, map (node_entry s k) (lw_orders w) = map (node_entry s k) kept) /\
      index_without lookup (map Order_id gone.*2) (lw_lookup w);
  wo_live : Forall live (lw_orders w);
  wo_volume : lw_totalVolume w = wrap64 (tv - sum_quantity (lw_trades w));
  wo_taker :
    sum_quantity (lw_trades w) =
    Order_remainingQuantity incoming - Order_remainingQuantity (lw_incoming w);
  wo_makers :
    sum_quantity (lw_trades w) =
    sum_remaining fifo - sum_remaining (lw_orders w);
  wo_incoming :
    lw_incoming w = setRemaining incoming (Order_remainingQuantity (lw_incoming w));
  wo_incoming_u64 : u64 (Order_remainingQuantity (lw_incoming w));
  wo_stop : lw_orders w <> [] -> isFilled (lw_incoming w) = true;
  wo_trades :
    Forall (fun t => Trade_price t = p /\
                     Trade_takerOrderId t = Order_id incoming /\
                     Trade_makerOrderId t ∈ map Order_id fifo.*2 /\
                     0 < Trade_quantity t) (lw_trades w)
}.

(** The order of trade prices along a side ordered by [comp]. *)
Definition price_order (comp : Price -> Price -> bool) (p1 p2 : Price) : Prop :=
  p1 = p2 \/ comp p1 p2 = true.

(** The level a trade was made at, in the side [book] it was matched against. *)
Definition trade_from (book : BookSide) (incoming : Order) (t : Trade) : Prop :=
  Trade_takerOrderId t = Order_id incoming /\
  0 < Trade_quantity t /\
  exists L, (Trade_price t, L) ∈ book /\ Level_price L = Trade_price t /\
            Trade_makerOrderId t ∈ map Order_id (Level_orders L).*2.

(** The level left at the head of the side does not cross the order. *)
Definition head_uncrossed (incoming : Order) (book : BookSide) : Prop :=
  match book with
  | [] => True
  | (k, _) :: _ => priceMatch incoming k = false
  end.

(** What one run of [matchAgainstBook] establishes on a side ordered by
    [comp]. *)
Record sweep_ok (comp : Price -> Price -> bool) (next : NodeRef)
    (incoming : Order) (book : BookSide) (lookup : gmap Z OrderLocation)
    (w : BookWalk) : Prop := mk_sweep_ok {
  so_side : side_ok comp next (bw_book w);
  so_keys : keys (bw_book w) `suffix_of` keys book;
  so_entries :
    forall s, exists gone,
      side_entries s book = gone ++ side_entries s (bw_book w) /\
      index_without lookup gone.*1 (bw_lookup w);
  so_taker :
    sum_quantity (bw_trades w) =
    Order_remainingQuantity incoming - Order_remainingQuantity (bw_incoming w);
  so_makers :
    sum_quantity (bw_trades w) = side_remaining book - side_remaining (bw_book w);
  so_incoming :
    bw_incoming w = setRemaining incoming (Order_remainingQuantity (bw_incoming w));
  so_incoming_u64 : u64 (Order_remainingQuantity (bw_incoming w));
  so_stop : isFilled (bw_incoming w) = false -> head_uncrossed incoming (bw_book w);
  so_trades : Forall (trade_from book incoming) (bw_trades w);
  so_prices : StronglySorted (price_order comp) (map Trade_price (bw_trades w))
}.

(** The comparators of [std::map] used here are strict total orders. *)
Class Comparator (comp : Price -> Price -> bool) : Prop := {
  comp_irrefl : forall a, comp a a = false;
  comp_trans : forall a b c, comp a b = true -> comp b c = true -> comp a c = true;
  comp_connex : forall a b, a <> b -> comp a b = false -> comp b a = true
}.

(** What [match] establishes, for the book and for the incoming order. *)
Record match_ok (b : OrderBook) (o : Order) (trades : list Trade) (o' : Order)
    (b1 : OrderBook) : Prop := mk_match_ok {
  mo_inv : book_inv b1;
  mo_next : nextNode b1 = nextNode b;
  mo_own : own_side (Order_side o) b1 = own_side (Order_side o) b;
  mo_sweep :
    exists comp, sweep_ok comp (nextNode b) o (opposite_side (Order_side o) b) (orderLookup b)
      (mkBookWalk trades o' (opposite_side (Order_side o) b1) (orderLookup b1)) /\
      comp = match Order_side o with Buy => less | Sell => greater end;
  mo_absent : orderLookup b !! Order_id o = None -> orderLookup b1 !! Order_id o = None
}.

(** The book after the resting branch of [addOrder]. *)
Definition rested (o' : Order) (b1 : OrderBook) : OrderBook :=
  match Order_side o' with
  | Buy =>
      mkOrderBook (addToBook greater o' (nextNode b1) (bids b1) (orderLookup b1)).1 (asks b1)
        (addToBook greater o' (nextNode b1) (bids b1) (orderLookup b1)).2 (S (nextNode b1))
  | Sell =>
      mkOrderBook (bids b1) (addToBook less o' (nextNode b1) (asks b1) (orderLookup b1)).1
        (addToBook less o' (nextNode b1) (asks b1) (orderLookup b1)).2 (S (nextNode b1))
  end.

(** The book of seed scenario 4 before the Buy arrives. *)
Definition sweep_book : OrderBook :=
  (addOrder
     (addOrder (addOrder emptyBook (newOrder 1 Sell 100 2)).2 (newOrder 2 Sell 100 3)).2
     (newOrder 3 Sell 101 4)).2.

(** The book holding the single order Buy 1 at price 100 for 5. *)
Definition one_bid_book : OrderBook := (addOrder emptyBook (newOrder 1 Buy 100 5)).2.

(** The book after Buy 1 and Buy 2 at price 100, each for 2^63. *)
Definition overflow_book : OrderBook :=
  (addOrder (addOrder emptyBook (newOrder 1 Buy 100 (2 ^ 63))).2
     (newOrder 2 Buy 100 (2 ^ 63))).2.

(** The resting orders of a side, each with the key of its level, in the
    order matching visits them. *)
Definition priced (book : BookSide) : list (Price * Order) :=
  flat_map (fun kl => map (fun n : Node => (kl.1, n.2)) (Level_orders kl.2)) book.

(** The trade that takes all that a resting order has left. *)
Definition full_fill (taker : OrderId) (po : Price * Order) : Trade :=
  mkTrade po.1 (Order_remainingQuantity po.2) (Order_id po.2) taker.

(** The result of a sweep over the resting orders [before]: the orders
    [gone] traded all they had, and the first order kept either was not
    reached or traded a part. *)
Definition swept (taker : OrderId) (before : list (Price * Order))
    (trades : list Trade) (after : list (Price * Order)) : Prop :=
  exists gone kept,
    before = gone ++ kept /\
    ((after = kept /\ trades = map (full_fill taker) gone) \/
     (exists p o rest q,
        kept = (p, o) :: rest /\
        after = (p, setRemaining o q) :: rest /\
        0 < q < Order_remainingQuantity o /\
        trades = map (full_fill taker) gone ++
                 [mkTrade p (Order_remainingQuantity o - q) (Order_id o) taker])).

(** The levels of a side that the price check of [matchAgainstBook] lets the
    incoming order trade with. *)
Definition crossable (incoming : Order) (book : BookSide) : BookSide :=
  filter (fun kl => priceMatch incoming kl.1 = true) book.

(** The limit of the incoming order admits the price [p]. *)
Definition within_limit (incoming : Order) (p : Price) : Prop :=
  match Order_side incoming with
  | Buy => p <= Order_price incoming
  | Sell => Order_price incoming <= p
  end.

(** A price beyond one the limit rejects is rejected as well. *)
Definition limit_closed (comp : Price -> Price -> bool) (incoming : Order) : Prop :=
  forall k k', comp k k' = true ->
    priceMatch incoming k = false -> priceMatch incoming k' = false.

(** Every order of the side [book] names the side [s] and the key of the
    level that holds it. *)
Definition placed (s : Side) (book : BookSide) : Prop :=
  Forall (fun po : Z * Order => Order_side po.2 = s /\ Order_price po.2 = po.1) (priced book).

(** The command [MatchingEngine::stop] pushes. *)
Definition StopCommand : Command := mkCommand Stop None None.

(** The order a command carries has [uint64_t] members. *)
Definition u64_command (cmd : Command) : Prop :=
  forall o, Command_order cmd = Some o -> u64_order o.

(** What an observer can tell apart in a book. *)
Definition book_state (b : OrderBook) : list (Z * Level) * list (Z * Level) * gmap Z OrderLocation :=
  (bids b, asks b, orderLookup b).

(** * Proofs *)

(** * Arithmetic on [uint64_t] *)

Lemma wrap64_u64 z : u64 z -> wrap64 z = z.
Proof. intros H. apply Z.mod_small. exact H. Qed.

Lemma wrap64_range z : u64 (wrap64 z).
Proof. unfold u64, wrap64, U64_MODULUS. apply Z.mod_pos_bound. lia. Qed.

Lemma wrap64_sub_wrap a b : wrap64 (wrap64 a - b) = wrap64 (a - b).
Proof. unfold wrap64. apply Zminus_mod_idemp_l. Qed.

Lemma wrap64_add_wrap a b : wrap64 (wrap64 a + b) = wrap64 (a + b).
Proof. unfold wrap64. apply Zplus_mod_idemp_l. Qed.

Lemma isFilled_true o : isFilled o = true <-> Order_remainingQuantity o = 0.
Proof. unfold isFilled. apply Z.eqb_eq. Qed.

Lemma isFilled_false o : isFilled o = false <-> Order_remainingQuantity o <> 0.
Proof. unfold isFilled. apply Z.eqb_neq. Qed.

Lemma sum_remaining_app l1 l2 :
  sum_remaining (l1 ++ l2) = sum_remaining l1 + sum_remaining l2.
Proof. induction l1 as [|o l1 IH]; simpl; [reflexivity | rewrite IH; lia]. Qed.

Lemma sum_quantity_app l1 l2 :
  sum_quantity (l1 ++ l2) = sum_quantity l1 + sum_quantity l2.
Proof. induction l1 as [|o l1 IH]; simpl; [reflexivity | rewrite IH; lia]. Qed.

(** * The flattened views of a side *)

Lemma resting_app m1 m2 : resting (m1 ++ m2) = resting m1 ++ resting m2.
Proof. apply flat_map_app. Qed.

Lemma resting_cons k L m : resting ((k, L) :: m) = (Level_orders L).*2 ++ resting m.
Proof. reflexivity. Qed.

Lemma side_entries_app s m1 m2 :
  side_entries s (m1 ++ m2) = side_entries s m1 ++ side_entries s m2.
Proof. apply flat_map_app. Qed.

Lemma side_entries_cons s k L m :
  side_entries s ((k, L) :: m) = map (node_entry s k) (Level_orders L) ++ side_entries s m.
Proof. reflexivity. Qed.

Lemma side_entries_ids s m : (side_entries s m).*1 = map Order_id (resting m).
Proof.
  induction m as [|[k L] m IH]; [reflexivity|].
  rewrite side_entries_cons, resting_cons, fmap_app, map_app, IH. f_equal.
  induction (Level_orders L) as [|[r o] f IHf]; [reflexivity|].
  simpl. f_equal. exact IHf.
Qed.

Lemma side_entries_side s m e : e ∈ side_entries s m -> OrderLocation_side e.2 = s.
Proof.
  induction m as [|[k L] m IH]; simpl.
  - intros H. inversion H.
  - rewrite elem_of_app. intros [H|H]; [|auto].
    apply list_elem_of_fmap in H as (n & -> & _). reflexivity.
Qed.

Lemma keys_cons k L (m : list (Z * Level)) : keys ((k, L) :: m) = k :: keys m.
Proof. reflexivity. Qed.

Lemma keys_app m1 m2 : keys (m1 ++ m2) = keys m1 ++ keys m2.
Proof. apply fmap_app. Qed.

(** * [std::map] operations on a side *)

Lemma map_find_split k book L :
  map_find k book = Some L ->
  exists m1 m2, book = m1 ++ (k, L) :: m2 /\ k ∉ keys m1.
Proof.
  induction book as [|[k' L'] book IH]; simpl; [discriminate|].
  destruct (Z.eqb_spec k k') as [->|Hne].
  - intros [= ->]. exists [], book. split; [reflexivity|]. apply not_elem_of_nil.
  - intros H. destruct (IH H) as (m1 & m2 & -> & Hk).
    exists ((k', L') :: m1), m2. split; [reflexivity|].
    unfold keys. simpl. rewrite not_elem_of_cons. split; assumption.
Qed.

Lemma map_find_app k m1 L m2 :
  k ∉ keys m1 -> map_find k (m1 ++ (k, L) :: m2) = Some L.
Proof.
  induction m1 as [|[k' L'] m1 IH]; simpl.
  - intros _. rewrite Z.eqb_refl. reflexivity.
  - unfold keys. simpl. rewrite not_elem_of_cons. intros [Hne Hk].
    destruct (Z.eqb_spec k k'); [contradiction|]. apply IH, Hk.
Qed.

Lemma map_find_None k book : map_find k book = None <-> k ∉ keys book.
Proof.
  induction book as [|[k' L'] book IH]; simpl.
  - split; [intros _; apply not_elem_of_nil | reflexivity].
  - unfold keys in *. simpl. rewrite not_elem_of_cons.
    destruct (Z.eqb_spec k k') as [->|Hne].
    + split; [discriminate | intros [H _]; congruence].
    + rewrite IH. tauto.
Qed.

Lemma map_update_app k v m1 L m2 :
  k ∉ keys m1 -> map_update k v (m1 ++ (k, L) :: m2) = m1 ++ (k, v) :: m2.
Proof.
  induction m1 as [|[k' L'] m1 IH]; simpl.
  - intros _. rewrite Z.eqb_refl. reflexivity.
  - unfold keys. simpl. rewrite not_elem_of_cons. intros [Hne Hk].
    destruct (Z.eqb_spec k k'); [contradiction|]. f_equal. apply IH, Hk.
Qed.

Lemma map_erase_app k m1 L m2 :
  k ∉ keys m1 -> map_erase k (m1 ++ (k, L) :: m2) = m1 ++ m2.
Proof.
  induction m1 as [|[k' L'] m1 IH]; simpl.
  - intros _. rewrite Z.eqb_refl. reflexivity.
  - unfold keys. simpl. rewrite not_elem_of_cons. intros [Hne Hk].
    destruct (Z.eqb_spec k k'); [contradiction|]. f_equal. apply IH, Hk.
Qed.

(** * [std::list] operations on a FIFO *)

Lemma node_deref_app it f1 o f2 :
  it ∉ f1.*1 -> node_deref it (f1 ++ (it, o) :: f2) = Some o.
Proof.
  induction f1 as [|[r o'] f1 IH]; simpl.
  - intros _. rewrite Nat.eqb_refl. reflexivity.
  - rewrite not_elem_of_cons. intros [Hne Hk].
    destruct (Nat.eqb_spec it r); [contradiction|]. apply IH, Hk.
Qed.

Lemma list_erase_app it f1 o f2 :
  it ∉ f1.*1 -> list_erase it (f1 ++ (it, o) :: f2) = f1 ++ f2.
Proof.
  induction f1 as [|[r o'] f1 IH]; simpl.
  - intros _. rewrite Nat.eqb_refl. reflexivity.
  - rewrite not_elem_of_cons. intros [Hne Hk].
    destruct (Nat.eqb_spec it r); [contradiction|]. f_equal. apply IH, Hk.
Qed.

Lemma fifo_empty_true f : fifo_empty f = true <-> f = [].
Proof. destruct f; simpl; split; congruence. Qed.

Lemma fifo_empty_false f : fifo_empty f = false <-> f <> [].
Proof. destruct f; simpl; split; congruence. Qed.

(** * The walk over one level *)

Lemma index_without_nil lookup : index_without lookup [] lookup.
Proof. intros i. destruct (decide (i ∈ [])) as [H|_]; [inversion H | reflexivity]. Qed.

Lemma index_without_delete lookup i gone lookup' :
  index_without (delete i lookup) gone lookup' ->
  index_without lookup (i :: gone) lookup'.
Proof.
  intros H j. rewrite (H j).
  destruct (decide (j ∈ gone)) as [Hj|Hj].
  - rewrite decide_True by (right; exact Hj). reflexivity.
  - destruct (decide (j = i)) as [->|Hne].
    + rewrite decide_True by left. apply lookup_delete_eq.
    + rewrite decide_False by (rewrite elem_of_cons; tauto).
      apply lookup_delete_ne. congruence.
Qed.

Lemma index_without_app lookup g1 lookup1 g2 lookup2 :
  index_without lookup g1 lookup1 ->
  index_without lookup1 g2 lookup2 ->
  index_without lookup (g1 ++ g2) lookup2.
Proof.
  intros H1 H2 j. rewrite (H2 j), (H1 j).
  destruct (decide (j ∈ g2)) as [Hj|Hj].
  - rewrite decide_True by (rewrite elem_of_app; tauto). reflexivity.
  - destruct (decide (j ∈ g1)) as [Hi|Hi].
    + rewrite decide_True by (rewrite elem_of_app; tauto). reflexivity.
    + rewrite decide_False by (rewrite elem_of_app; tauto). reflexivity.
Qed.

Lemma setRemaining_same o : setRemaining o (Order_remainingQuantity o) = o.
Proof. destruct o. reflexivity. Qed.

Lemma matchLevel_ok p fifo : forall incoming tv lookup,
  Forall live fifo ->
  u64 (Order_remainingQuantity incoming) ->
  u64 tv ->
  walk_ok p fifo incoming tv lookup (matchLevel p fifo incoming tv lookup).
Proof.
  induction fifo as [|[it bo] rest IH]; intros incoming tv lookup Hlive Hin Htv.
  - simpl. split; simpl.
    + exists [], []. repeat split.
    + constructor.
    + rewrite Z.sub_0_r. symmetry. apply wrap64_u64, Htv.
    + lia.
    + lia.
    + symmetry. apply setRemaining_same.
    + exact Hin.
    + congruence.
    + constructor.
  - apply Forall_cons in Hlive as [Hbo Hrest]. unfold live in Hbo. simpl in Hbo.
    simpl. destruct (isFilled incoming) eqn:Hfilled.
    { split; simpl.
      + exists [], ((it, bo) :: rest). repeat split.
      + constructor; assumption.
      + rewrite Z.sub_0_r. symmetry. apply wrap64_u64, Htv.
      + lia.
      + lia.
      + symmetry. apply setRemaining_same.
      + exact Hin.
      + intros _. exact Hfilled.
      + constructor. }
    apply isFilled_false in Hfilled.
    set (q := Z.min (Order_remainingQuantity incoming) (Order_remainingQuantity bo)).
    assert (Hq : (0 < q) /\ (q <= Order_remainingQuantity incoming) /\
                 (q <= Order_remainingQuantity bo)) by (unfold u64 in Hin; lia).
    assert (Ha : wrap64 (Order_remainingQuantity incoming - q) =
                 Order_remainingQuantity incoming - q)
      by (apply wrap64_u64; unfold u64 in *; lia).
    assert (Hb : wrap64 (Order_remainingQuantity bo - q) =
                 Order_remainingQuantity bo - q)
      by (apply wrap64_u64; unfold u64 in *; lia).
    rewrite Ha, Hb.
    assert (Hin' : u64 (Order_remainingQuantity
                     (setRemaining incoming (Order_remainingQuantity incoming - q))))
      by (simpl; unfold u64 in *; lia).
    destruct (isFilled (setRemaining bo (Order_remainingQuantity bo - q))) eqn:Hmaker.
    + apply isFilled_true in Hmaker. simpl in Hmaker.
      destruct (IH (setRemaining incoming (Order_remainingQuantity incoming - q))
                   (wrap64 (tv - q)) (delete (Order_id bo) lookup)
                   Hrest Hin' (wrap64_range _))
        as [(gone & kept & Hsplit & Hkept & Hidx) Hl Hv Ht Hm Hi Hu Hs Htr].
      simpl in *. split; simpl.
      * exists ((it, bo) :: gone), kept. split; [rewrite Hsplit; reflexivity|].
        split; [exact Hkept|]. simpl. apply index_without_delete, Hidx.
      * exact Hl.
      * rewrite Hv, wrap64_sub_wrap. f_equal. lia.
      * lia.
      * lia.
      * rewrite Hi at 1. reflexivity.
      * exact Hu.
      * exact Hs.
      * constructor; simpl.
        { repeat split; [left | lia]. }
        eapply Forall_impl; [exact Htr|]. simpl.
        intros t (? & ? & ? & ?). repeat split; try assumption. right. assumption.
    + apply isFilled_false in Hmaker. simpl in Hmaker.
      destruct (IH (setRemaining incoming (Order_remainingQuantity incoming - q))
                   (wrap64 (tv - q)) lookup Hrest Hin' (wrap64_range _))
        as [(gone & kept & Hsplit & Hkept & Hidx) Hl Hv Ht Hm Hi Hu Hs Htr].
      simpl in *.
      assert (Hzero : Order_remainingQuantity incoming - q = 0) by lia.
      assert (Hrec : matchLevel p rest
                (setRemaining incoming (Order_remainingQuantity incoming - q))
                (wrap64 (tv - q)) lookup =
              mkLevelWalk [] (setRemaining incoming (Order_remainingQuantity incoming - q))
                (wrap64 (tv - q)) rest lookup).
      { destruct rest as [|[it' bo'] rest']; [reflexivity|].
        simpl. unfold isFilled at 1. simpl. rewrite Hzero. reflexivity. }
      rewrite Hrec in *. simpl in *. split; simpl.
      * exists [], ((it, bo) :: rest). repeat split.
      * constructor; [unfold live; simpl; lia | exact Hrest].
      * f_equal. lia.
      * lia.
      * lia.
      * reflexivity.
      * unfold u64 in *. lia.
      * intros _. unfold isFilled. simpl. rewrite Hzero. reflexivity.
      * constructor; [|constructor]. simpl. repeat split; [left | lia].
Qed.

(** * The sweep over the levels of a side *)

Lemma node_entry_refs s k (f : list Node) :
  map (fun e : OrderId * OrderLocation => OrderLocation_iterator e.2)
      (map (node_entry s k) f) = f.*1.
Proof. induction f as [|[r o] f IH]; simpl; [reflexivity | f_equal; exact IH]. Qed.

Lemma node_entry_ids s k (f : list Node) :
  (map (node_entry s k) f).*1 = map Order_id f.*2.
Proof. induction f as [|[r o] f IH]; simpl; [reflexivity | f_equal; exact IH]. Qed.

Lemma side_remaining_cons k L m :
  side_remaining ((k, L) :: m) = sum_remaining (Level_orders L) + side_remaining m.
Proof. reflexivity. Qed.

Lemma side_remaining_app m1 m2 :
  side_remaining (m1 ++ m2) = side_remaining m1 + side_remaining m2.
Proof. induction m1 as [|kl m1 IH]; simpl; [reflexivity | rewrite IH; lia]. Qed.

Lemma matchAgainstBook_filled incoming book lookup :
  isFilled incoming = true ->
  matchAgainstBook incoming book lookup = mkBookWalk [] incoming book lookup.
Proof. intros H. destruct book as [|[k L] rest]; simpl; [|rewrite H]; reflexivity. Qed.

Lemma priceMatch_setRemaining incoming q p :
  priceMatch (setRemaining incoming q) p = priceMatch incoming p.
Proof. reflexivity. Qed.

Lemma sweep_ok_stay comp next incoming book lookup :
  side_ok comp next book ->
  u64 (Order_remainingQuantity incoming) ->
  (isFilled incoming = false -> head_uncrossed incoming book) ->
  sweep_ok comp next incoming book lookup (mkBookWalk [] incoming book lookup).
Proof.
  intros Hside Hin Hstop. split; simpl.
  - exact Hside.
  - reflexivity.
  - intros s. exists []. split; [reflexivity | apply index_without_nil].
  - lia.
  - lia.
  - symmetry. apply setRemaining_same.
  - exact Hin.
  - exact Hstop.
  - constructor.
  - constructor.
Qed.

Lemma StronglySorted_constant (R : Price -> Price -> Prop) (p : Price) (l : list Price) :
  (forall x, R x x) -> Forall (fun x => x = p) l -> StronglySorted R l.
Proof.
  intros Hrefl. induction 1 as [|x l -> Hall IH]; constructor; [exact IH|].
  eapply Forall_impl; [exact Hall|]. intros y ->. apply Hrefl.
Qed.

Lemma trade_from_weaken kl book incoming t :
  trade_from book incoming t -> trade_from (kl :: book) incoming t.
Proof.
  intros (Ht & Hq & L & HL & Hp & Hm). repeat split; try assumption.
  exists L. repeat split; try assumption. right. exact HL.
Qed.

Lemma matchAgainstBook_ok comp next book : forall incoming lookup,
  side_ok comp next book ->
  u64 (Order_remainingQuantity incoming) ->
  sweep_ok comp next incoming book lookup (matchAgainstBook incoming book lookup).
Proof.
  induction book as [|[k level] rest IH]; intros incoming lookup Hside Hin.
  - simpl. apply sweep_ok_stay; [exact Hside | exact Hin | intros _; exact I].
  - simpl. destruct (isFilled incoming) eqn:Hfilled.
    { apply sweep_ok_stay; [exact Hside | exact Hin | congruence]. }
    destruct Hside as [Hsorted Hlevels].
    apply Forall_cons in Hlevels as [Hlevel Hlevels]. simpl in Hlevel.
    destruct Hlevel as [Hprice Hnonempty Hlive Hvolume Hrefs Hfresh].
    unfold ordered_by, keys in Hsorted. rewrite fmap_cons in Hsorted. simpl in Hsorted.
    apply StronglySorted_cons in Hsorted as [Hbefore Hsorted].
    destruct (priceMatch incoming (Level_price level)) eqn:Hcross; simpl.
    2:{ apply sweep_ok_stay; [|exact Hin|].
        - split; [unfold ordered_by, keys; rewrite fmap_cons; simpl;
                  apply StronglySorted_cons; split; assumption|].
          constructor; [split; assumption | exact Hlevels].
        - intros _. simpl. rewrite <- Hprice. exact Hcross. }
    assert (Htv : u64 (Level_totalVolume level)) by (rewrite Hvolume; apply wrap64_range).
    pose proof (matchLevel_ok (Level_price level) (Level_orders level) incoming
                  (Level_totalVolume level) lookup Hlive Hin Htv) as Hw.
    set (lw := matchLevel (Level_price level) (Level_orders level) incoming
                 (Level_totalVolume level) lookup) in *.
    destruct Hw as [(gone & kept & Hsplit & Hkept & Hidx) Hl Hv Ht Hm Hi Hu Hs Htr].
    assert (Htrades_here : Forall (trade_from ((k, level) :: rest) incoming) (lw_trades lw)).
    { eapply Forall_impl; [exact Htr|]. intros t (Hp & Htk & Hmk & Hq).
      repeat split; try assumption. exists level. rewrite Hp, Hprice.
      repeat split; [left | exact Hmk]. }
    assert (Hprices_here : Forall (fun x => x = k) (map Trade_price (lw_trades lw))).
    { apply Forall_fmap. eapply Forall_impl; [exact Htr|]. simpl.
      intros t (Hp & _). congruence. }
    destruct (fifo_empty (lw_orders lw)) eqn:Hempty.
    + apply fifo_empty_true in Hempty.
      destruct (IH (lw_incoming lw) (lw_lookup lw) (conj Hsorted Hlevels) Hu)
        as [Rside Rkeys Rentries Rtaker Rmakers Rincoming Ru64 Rstop Rtrades Rprices].
      set (r := matchAgainstBook (lw_incoming lw) rest (lw_lookup lw)) in *.
      split; cbn [bw_trades bw_incoming bw_book bw_lookup].
      * exact Rside.
      * unfold keys. rewrite fmap_cons. apply suffix_cons_r. exact Rkeys.
      * intros s. destruct (Rentries s) as (gone_r & Hent & Hidx_r).
        exists (map (node_entry s k) gone ++ gone_r). split.
        -- rewrite side_entries_cons, Hent, Hsplit, map_app.
           specialize (Hkept s k). rewrite Hempty in Hkept. simpl in Hkept.
           rewrite <- Hkept. simpl. rewrite app_nil_r, app_assoc. reflexivity.
        -- rewrite fmap_app, node_entry_ids.
           eapply index_without_app; eassumption.
      * rewrite sum_quantity_app. lia.
      * rewrite sum_quantity_app, side_remaining_cons.
        rewrite Hempty in Hm. simpl in Hm. lia.
      * rewrite Rincoming at 1. rewrite Hi. reflexivity.
      * exact Ru64.
      * intros Hopen. specialize (Rstop Hopen).
        destruct (bw_book r) as [|[k' L'] m']; [exact I|]. simpl in *.
        rewrite Hi in Rstop. exact Rstop.
      * apply Forall_app. split; [exact Htrades_here|].
        eapply Forall_impl; [exact Rtrades|]. intros t Hfrom.
        apply trade_from_weaken. destruct Hfrom as (Htk & Hrest).
        split; [|exact Hrest]. rewrite Htk, Hi. reflexivity.
      * rewrite map_app. apply StronglySorted_app. split; [|split].
        -- intros p1 p2 Hp1 Hp2.
           rewrite Forall_forall in Hprices_here. rewrite (Hprices_here p1 Hp1).
           right. apply list_elem_of_fmap in Hp2 as (t & -> & Ht2).
           rewrite Forall_forall in Rtrades.
           destruct (Rtrades t Ht2) as (_ & _ & L & HL & _).
           rewrite Forall_forall in Hbefore. apply Hbefore.
           apply list_elem_of_fmap. exists (Trade_price t, L). split; [reflexivity | exact HL].
        -- eapply StronglySorted_constant; [|exact Hprices_here]. intros x. left. reflexivity.
        -- exact Rprices.
    + apply fifo_empty_false in Hempty.
      rewrite (matchAgainstBook_filled _ _ _ (Hs Hempty)). simpl.
      rewrite app_nil_r.
      assert (Hrefs_kept : (lw_orders lw).*1 = kept.*1).
      { rewrite <- (node_entry_refs Buy k (lw_orders lw)), <- (node_entry_refs Buy k kept).
        f_equal. apply Hkept. }
      split; cbn [bw_trades bw_incoming bw_book bw_lookup].
      * split.
        -- unfold ordered_by, keys. rewrite fmap_cons. simpl.
           apply StronglySorted_cons. split; assumption.
        -- constructor; [|exact Hlevels]. simpl. split; simpl.
           ++ exact Hprice.
           ++ exact Hempty.
           ++ exact Hl.
           ++ rewrite Hv, Hvolume, wrap64_sub_wrap. f_equal. lia.
           ++ rewrite Hrefs_kept. rewrite Hsplit, fmap_app in Hrefs.
              apply NoDup_app in Hrefs. tauto.
           ++ rewrite Hrefs_kept. rewrite Hsplit, fmap_app in Hfresh.
              apply Forall_app in Hfresh. tauto.
      * reflexivity.
      * intros s. exists (map (node_entry s k) gone). split.
        -- rewrite !side_entries_cons. simpl. rewrite Hkept, Hsplit, map_app, app_assoc.
           reflexivity.
        -- rewrite node_entry_ids. exact Hidx.
      * exact Ht.
      * rewrite !side_remaining_cons. simpl. lia.
      * exact Hi.
      * exact Hu.
      * intros Hopen. rewrite (Hs Hempty) in Hopen. discriminate.
      * exact Htrades_here.
      * eapply StronglySorted_constant; [|exact Hprices_here]. intros x. left. reflexivity.
Qed.

(** * The index against the flattened book *)

Lemma indexes_remove E1 gone E2 lookup lookup' :
  NoDup (E1 ++ gone ++ E2).*1 ->
  indexes lookup (E1 ++ gone ++ E2) ->
  index_without lookup gone.*1 lookup' ->
  NoDup (E1 ++ E2).*1 /\ indexes lookup' (E1 ++ E2).
Proof.
  intros Hnd Hidx Hwo.
  rewrite !fmap_app in Hnd.
  apply NoDup_app in Hnd as (Hnd1 & Hdisj1 & Hnd23).
  apply NoDup_app in Hnd23 as (Hnd2 & Hdisj2 & Hnd3).
  split.
  - rewrite fmap_app. apply NoDup_app. split; [exact Hnd1|]. split; [|exact Hnd3].
    intros i Hi1 Hi3. apply (Hdisj1 i Hi1). rewrite elem_of_app. right. exact Hi3.
  - intros i loc. rewrite (Hwo i). split.
    + destruct (decide (i ∈ gone.*1)) as [Hin|Hout]; [discriminate|].
      intros Hsome. apply Hidx in Hsome.
      rewrite !elem_of_app in Hsome. rewrite elem_of_app.
      destruct Hsome as [H|[H|H]]; [left; exact H | | right; exact H].
      exfalso. apply Hout. apply list_elem_of_fmap. exists (i, loc). split; [reflexivity|exact H].
    + intros Hin.
      assert (Hout : i ∉ gone.*1).
      { intros Hg. apply elem_of_app in Hin as [H|H].
        - apply (Hdisj1 i).
          + apply list_elem_of_fmap. exists (i, loc). split; [reflexivity|exact H].
          + rewrite elem_of_app. left. exact Hg.
        - apply (Hdisj2 i Hg).
          apply list_elem_of_fmap. exists (i, loc). split; [reflexivity|exact H]. }
      rewrite decide_False by exact Hout. apply Hidx.
      rewrite !elem_of_app. rewrite elem_of_app in Hin. tauto.
Qed.

Lemma indexes_insert E1 E2 lookup i loc :
  NoDup (E1 ++ E2).*1 ->
  indexes lookup (E1 ++ E2) ->
  lookup !! i = None ->
  NoDup (E1 ++ (i, loc) :: E2).*1 /\
  indexes (lookup_insert_new i loc lookup) (E1 ++ (i, loc) :: E2).
Proof.
  intros Hnd Hidx Hnone.
  assert (Hfresh : i ∉ (E1 ++ E2).*1).
  { intros Hin. apply list_elem_of_fmap in Hin as ([j loc'] & Hj & Hin). simpl in Hj. subst j.
    apply Hidx in Hin. congruence. }
  rewrite fmap_app in Hnd, Hfresh. rewrite elem_of_app in Hfresh.
  apply NoDup_app in Hnd as (Hnd1 & Hdisj & Hnd2).
  split.
  - rewrite fmap_app, fmap_cons. simpl. apply NoDup_app. split; [exact Hnd1|]. split.
    + intros j Hj1. rewrite not_elem_of_cons. split; [|apply Hdisj, Hj1].
      intros ->. tauto.
    + constructor; [tauto | exact Hnd2].
  - unfold lookup_insert_new. rewrite Hnone. intros j loc'.
    rewrite elem_of_app, elem_of_cons.
    destruct (decide (i = j)) as [->|Hne].
    + rewrite lookup_insert_eq. split.
      * intros [= ->]. right. left. reflexivity.
      * intros [H|[H|H]]; [| congruence |].
        -- exfalso. apply Hfresh. left. apply list_elem_of_fmap.
           exists (j, loc'). split; [reflexivity | exact H].
        -- exfalso. apply Hfresh. right. apply list_elem_of_fmap.
           exists (j, loc'). split; [reflexivity | exact H].
    + rewrite lookup_insert_ne by exact Hne. rewrite (Hidx j loc'), elem_of_app.
      split; [tauto|]. intros [H|[H|H]]; [tauto | congruence | tauto].
Qed.

(** * Comparators of the two sides *)

Global Instance greater_Comparator : Comparator greater.
Proof.
  split; unfold greater.
  - intros a. rewrite Z.gtb_ltb. apply Z.ltb_irrefl.
  - intros a b c. rewrite !Z.gtb_ltb, !Z.ltb_lt. lia.
  - intros a b. rewrite !Z.gtb_ltb, Z.ltb_lt, Z.ltb_ge. lia.
Qed.

Global Instance less_Comparator : Comparator less.
Proof.
  split; unfold less.
  - intros a. apply Z.ltb_irrefl.
  - intros a b c. rewrite !Z.ltb_lt. lia.
  - intros a b. rewrite Z.ltb_lt, Z.ltb_ge. lia.
Qed.

Section OrderedSide.
Context (comp : Price -> Price -> bool) `{!Comparator comp}.

Lemma ordered_by_cons k L book :
  ordered_by comp ((k, L) :: book) <->
  Forall (fun k' => comp k k' = true) (keys book) /\ ordered_by comp book.
Proof. unfold ordered_by. rewrite keys_cons. apply StronglySorted_cons. Qed.

Lemma ordered_by_app m1 m2 :
  ordered_by comp (m1 ++ m2) <->
  (forall k1 k2, k1 ∈ keys m1 -> k2 ∈ keys m2 -> comp k1 k2 = true) /\
  ordered_by comp m1 /\ ordered_by comp m2.
Proof. unfold ordered_by. rewrite keys_app. apply StronglySorted_app. Qed.

Lemma ordered_by_key_once m1 k L m2 :
  ordered_by comp (m1 ++ (k, L) :: m2) -> (k ∉ keys m1) /\ (k ∉ keys m2).
Proof.
  rewrite ordered_by_app, ordered_by_cons. intros (Hcross & _ & Hafter & _). split.
  - intros Hin.
    assert (Hk : k ∈ keys ((k, L) :: m2)) by (rewrite keys_cons; left).
    specialize (Hcross k k Hin Hk). rewrite comp_irrefl in Hcross. discriminate.
  - intros Hin. rewrite Forall_forall in Hafter. specialize (Hafter k Hin).
    rewrite comp_irrefl in Hafter. discriminate.
Qed.

Lemma ordered_by_drop m1 kl m2 :
  ordered_by comp (m1 ++ kl :: m2) -> ordered_by comp (m1 ++ m2).
Proof.
  destruct kl as [k L]. rewrite !ordered_by_app, ordered_by_cons.
  intros (Hcross & H1 & _ & H2). split; [|tauto].
  intros k1 k2 Hk1 Hk2. apply Hcross; [exact Hk1|].
  rewrite keys_cons. right. exact Hk2.
Qed.

Lemma ordered_by_replace m1 k L L' m2 :
  ordered_by comp (m1 ++ (k, L) :: m2) -> ordered_by comp (m1 ++ (k, L') :: m2).
Proof. unfold ordered_by. rewrite !keys_app. unfold keys. rewrite !fmap_cons. tauto. Qed.

(** [book[k]] leaves a book that has the key as it is, and otherwise puts an
    empty level where the order of the side wants it. *)
Lemma map_subscript_spec k book :
  ordered_by comp book ->
  (k ∈ keys book /\ map_subscript comp k book = book) \/
  ((k ∉ keys book) /\
   exists m1 m2, book = m1 ++ m2 /\
     map_subscript comp k book = m1 ++ (k, Level_default) :: m2 /\
     ordered_by comp (m1 ++ (k, Level_default) :: m2)).
Proof.
  induction book as [|[k' L'] rest IH]; intros Hord.
  - right. split; [apply not_elem_of_nil|]. exists [], []. simpl.
    repeat split. unfold ordered_by. simpl. repeat constructor.
  - cbn [map_subscript]. apply ordered_by_cons in Hord as Hparts. destruct Hparts as [Hbefore Hrest].
    destruct (Z.eqb_spec k k') as [->|Hne].
    { left. split; [|reflexivity]. rewrite keys_cons. left. }
    destruct (comp k k') eqn:Hcomp.
    + right. split.
      * rewrite keys_cons. rewrite not_elem_of_cons.
        split; [exact Hne|]. intros Hin. rewrite Forall_forall in Hbefore.
        pose proof (comp_trans _ _ _ Hcomp (Hbefore k Hin)) as Hkk.
        rewrite comp_irrefl in Hkk. discriminate.
      * exists [], ((k', L') :: rest). simpl. repeat split.
        apply ordered_by_cons. split; [|exact Hord].
        rewrite keys_cons. constructor; [exact Hcomp|].
        eapply Forall_impl; [exact Hbefore|]. simpl. intros x Hx.
        eapply comp_trans; eassumption.
    + pose proof (comp_connex _ _ Hne Hcomp) as Hback.
      destruct (IH Hrest) as [[Hin Heq]|(Hout & m1 & m2 & Hsplit & Heq & Hord')].
      * left. split; [rewrite keys_cons; right; exact Hin|].
        rewrite Heq. reflexivity.
      * right. split.
        -- rewrite keys_cons. rewrite not_elem_of_cons. tauto.
        -- exists ((k', L') :: m1), m2. rewrite Heq, Hsplit. simpl. repeat split.
           apply ordered_by_cons. split; [|exact Hord'].
           rewrite Hsplit, keys_app in Hbefore. apply Forall_app in Hbefore as [Hb1 Hb2].
           rewrite keys_app. apply Forall_app. split; [exact Hb1|].
           rewrite keys_cons. constructor; [exact Hback | exact Hb2].
Qed.

(** [addToBook] on the levels of a side: the order is appended to the level
    under its price, which is the existing one or a new empty one. *)
Lemma addToBook_spec order it book lookup :
  ordered_by comp book ->
  exists m1 m2 L,
    (addToBook comp order it book lookup).1 =
      m1 ++ (Order_price order, level_push order it L) :: m2 /\
    ordered_by comp (m1 ++ (Order_price order, L) :: m2) /\
    (book = m1 ++ (Order_price order, L) :: m2 \/
     (book = m1 ++ m2 /\ L = Level_default)).
Proof.
  intros Hord. unfold addToBook. simpl.
  destruct (map_subscript_spec (Order_price order) book Hord)
    as [[Hin Heq]|(Hout & m1 & m2 & Hsplit & Heq & Hord')].
  - rewrite Heq.
    destruct (map_find (Order_price order) book) as [L|] eqn:Hfind.
    2:{ apply map_find_None in Hfind. contradiction. }
    destruct (map_find_split _ _ _ Hfind) as (m1 & m2 & Hsplit & Hk).
    exists m1, m2, L. rewrite Hsplit at 1. rewrite map_update_app by exact Hk.
    split; [reflexivity|]. split; [rewrite <- Hsplit; exact Hord | left; exact Hsplit].
  - rewrite Heq.
    destruct (ordered_by_key_once _ _ _ _ Hord') as [Hk1 _].
    rewrite map_find_app by exact Hk1. rewrite map_update_app by exact Hk1.
    exists m1, m2, Level_default. split; [reflexivity|]. split; [exact Hord'|].
    right. split; [exact Hsplit | reflexivity].
Qed.
End OrderedSide.

(** * Levels under the operations *)

Lemma level_ok_mono next next' k L :
  (next <= next')%nat -> level_ok next k L -> level_ok next' k L.
Proof.
  intros Hle [H1 H2 H3 H4 H5 H6]. split; try assumption.
  eapply Forall_impl; [exact H6|]. simpl. intros r Hr. lia.
Qed.

Lemma level_push_ok next k L order :
  level_ok next k L \/ L = Level_default ->
  Order_price order = k ->
  0 < Order_remainingQuantity order < U64_MODULUS ->
  level_ok (S next) k (level_push order next L).
Proof.
  intros HL Hk Hrem.
  assert (Hparts :
    (Level_totalVolume L = 0 \/ Level_price L = k) /\
    Forall live (Level_orders L) /\
    Level_totalVolume L = wrap64 (sum_remaining (Level_orders L)) /\
    NoDup (Level_orders L).*1 /\
    Forall (fun r : NodeRef => (r < next)%nat) (Level_orders L).*1).
  { destruct HL as [[H1 H2 H3 H4 H5 H6]| ->].
    - repeat split; try assumption. right. exact H1.
    - simpl. split; [left; reflexivity|]. split; [constructor|].
      split; [reflexivity|]. split; constructor. }
  destruct Hparts as (Hprice & Hlive & Hvol & Hrefs & Hfresh).
  unfold level_push. split; simpl.
  - destruct (Z.eqb_spec (Level_totalVolume L) 0); [exact Hk|]. tauto.
  - intros Hnil. apply app_eq_nil in Hnil as [_ Hnil]. discriminate.
  - apply Forall_app. split; [exact Hlive|]. constructor; [exact Hrem | constructor].
  - rewrite Hvol, wrap64_add_wrap, sum_remaining_app. simpl. f_equal. lia.
  - rewrite fmap_app. simpl. apply NoDup_app. split; [exact Hrefs|]. split.
    + intros r Hr. rewrite Forall_forall in Hfresh. specialize (Hfresh r Hr).
      rewrite list_elem_of_singleton. lia.
    + apply NoDup_singleton.
  - rewrite fmap_app. simpl. apply Forall_app. split.
    + eapply Forall_impl; [exact Hfresh|]. simpl. intros r Hr. lia.
    + constructor; [lia | constructor].
Qed.

(** * Cancellation within a side *)

Section CancelInSide.
Context (comp : Price -> Price -> bool) `{!Comparator comp}.

(** Where a resting node is, and what [cancelOrder] makes of its side. *)
Lemma cancelInSide_spec next s book orderId loc :
  side_ok comp next book ->
  (orderId, loc) ∈ side_entries s book ->
  exists m1 L m2 f1 o f2,
    book = m1 ++ (OrderLocation_price loc, L) :: m2 /\
    Level_orders L = f1 ++ (OrderLocation_iterator loc, o) :: f2 /\
    Order_id o = orderId /\
    OrderLocation_side loc = s /\
    cancelInSide loc book =
      if fifo_empty (f1 ++ f2) then m1 ++ m2
      else m1 ++ (OrderLocation_price loc,
                  mkLevel (Level_price L)
                    (wrap64 (Level_totalVolume L - Order_remainingQuantity o))
                    (f1 ++ f2)) :: m2.
Proof.
  intros [Hord Hlevels] Hin.
  unfold side_entries in Hin. apply list_elem_of_In, in_flat_map in Hin.
  destruct Hin as ([k L] & HkL & Hin). simpl in Hin.
  apply in_map_iff in Hin as ([it o] & Hentry & Hnode).
  unfold node_entry in Hentry. simpl in Hentry. injection Hentry as <- <-. simpl.
  apply list_elem_of_In, list_elem_of_split in HkL as (m1 & m2 & ->).
  apply list_elem_of_In, list_elem_of_split in Hnode as (f1 & f2 & Hfifo).
  destruct (ordered_by_key_once comp _ _ _ _ Hord) as [Hk1 _].
  apply Forall_app in Hlevels as [_ Hlevels].
  apply Forall_cons in Hlevels as [[_ _ _ _ Hrefs _] _]. simpl in Hrefs.
  rewrite Hfifo, fmap_app, fmap_cons in Hrefs. simpl in Hrefs.
  apply NoDup_app in Hrefs as (_ & Hdisj & _).
  assert (Hit : it ∉ f1.*1) by (intros Hit; apply (Hdisj it Hit); left).
  exists m1, L, m2, f1, o, f2. repeat split; try assumption.
  unfold cancelInSide. simpl.
  rewrite map_find_app by exact Hk1. rewrite Hfifo.
  rewrite node_deref_app by exact Hit. simpl.
  rewrite list_erase_app by exact Hit.
  destruct (fifo_empty (f1 ++ f2)).
  - apply map_erase_app, Hk1.
  - apply map_update_app, Hk1.
Qed.

Lemma cancelInSide_ok next s book orderId loc :
  side_ok comp next book ->
  (orderId, loc) ∈ side_entries s book ->
  side_ok comp next (cancelInSide loc book) /\
  (exists A B, side_entries s book = A ++ (orderId, loc) :: B /\
               side_entries s (cancelInSide loc book) = A ++ B) /\
  (forall k, k ∈ keys (cancelInSide loc book) -> k ∈ keys book) /\
  (exists RA o RB, resting book = RA ++ o :: RB /\ Order_id o = orderId /\
                   resting (cancelInSide loc book) = RA ++ RB).
Proof.
  intros Hside Hin.
  destruct (cancelInSide_spec next s book orderId loc Hside Hin)
    as (m1 & L & m2 & f1 & o & f2 & -> & Hfifo & Hid & Hs & ->).
  destruct Hside as [Hord Hlevels].
  set (k := OrderLocation_price loc) in *.
  set (it := OrderLocation_iterator loc) in *.
  assert (Hloc : loc = mkOrderLocation s k it) by (destruct loc; simpl in *; subst; reflexivity).
  apply Forall_app in Hlevels as [Hl1 Hl2].
  apply Forall_cons in Hl2 as [HL Hl2]. simpl in HL.
  destruct HL as [Hprice _ Hlive Hvol Hrefs Hfresh].
  assert (Hentries : side_entries s (m1 ++ (k, L) :: m2) =
            (side_entries s m1 ++ map (node_entry s k) f1) ++
            (orderId, loc) :: (map (node_entry s k) f2 ++ side_entries s m2)).
  { rewrite side_entries_app, side_entries_cons, Hfifo, map_app. simpl.
    unfold node_entry at 2. simpl. rewrite Hid, <- Hloc, <- !app_assoc. reflexivity. }
  assert (Hresting : resting (m1 ++ (k, L) :: m2) =
            (resting m1 ++ f1.*2) ++ o :: (f2.*2 ++ resting m2)).
  { rewrite resting_app, resting_cons, Hfifo, fmap_app, fmap_cons. simpl.
    rewrite <- !app_assoc. reflexivity. }
  destruct (fifo_empty (f1 ++ f2)) eqn:Hempty.
  - apply fifo_empty_true in Hempty. apply app_eq_nil in Hempty as [-> ->].
    split; [|split; [|split]].
    + split; [eapply (ordered_by_drop comp); exact Hord|].
      apply Forall_app. split; assumption.
    + eexists _, _. split; [exact Hentries|]. simpl.
      rewrite side_entries_app, !app_nil_r. reflexivity.
    + intros k'. rewrite !keys_app, keys_cons, !elem_of_app, elem_of_cons. tauto.
    + eexists _, o, _. split; [exact Hresting|]. split; [exact Hid|]. simpl.
      rewrite resting_app, !app_nil_r. reflexivity.
  - apply fifo_empty_false in Hempty.
    split; [|split; [|split]].
    + split; [eapply (ordered_by_replace comp); exact Hord|].
      apply Forall_app. split; [exact Hl1|]. constructor; [|exact Hl2].
      simpl. rewrite Hfifo in *. split; simpl.
      * exact Hprice.
      * exact Hempty.
      * apply Forall_app in Hlive as [Ha Hb]. apply Forall_cons in Hb as [_ Hb].
        apply Forall_app. split; assumption.
      * rewrite Hvol, wrap64_sub_wrap, !sum_remaining_app. simpl. f_equal. lia.
      * rewrite fmap_app, fmap_cons in Hrefs. rewrite fmap_app.
        apply NoDup_app in Hrefs as (Ha & Hdisj & Hb).
        apply NoDup_cons in Hb as [_ Hb].
        apply NoDup_app. split; [exact Ha|]. split; [|exact Hb].
        intros r Hr Hr2. apply (Hdisj r Hr). right. exact Hr2.
      * rewrite fmap_app, fmap_cons in Hfresh. rewrite fmap_app.
        apply Forall_app in Hfresh as [Ha Hb]. apply Forall_cons in Hb as [_ Hb].
        apply Forall_app. split; assumption.
    + eexists _, _. split; [exact Hentries|].
      rewrite side_entries_app, side_entries_cons. simpl.
      rewrite map_app, <- !app_assoc. reflexivity.
    + intros k'. rewrite !keys_app, !keys_cons. tauto.
    + eexists _, o, _. split; [exact Hresting|]. split; [exact Hid|].
      rewrite resting_app, resting_cons. simpl.
      rewrite fmap_app, <- !app_assoc. reflexivity.
Qed.
End CancelInSide.

(** * The invariant of the book *)

Lemma book_inv_empty : book_inv emptyBook.
Proof.
  split; simpl.
  - split; [constructor | constructor].
  - split; [constructor | constructor].
  - constructor.
  - intros i loc. rewrite lookup_empty. split; [discriminate | intros H; inversion H].
  - intros kb ka H. inversion H.
Qed.

Lemma side_ok_mono comp next next' book :
  (next <= next')%nat -> side_ok comp next book -> side_ok comp next' book.
Proof.
  intros Hle [Hord Hlevels]. split; [exact Hord|].
  eapply Forall_impl; [exact Hlevels|]. intros [k L]. apply level_ok_mono, Hle.
Qed.

Lemma suffix_elem_of (l1 l2 : list Z) x : l1 `suffix_of` l2 -> x ∈ l1 -> x ∈ l2.
Proof. intros [l ->] Hx. rewrite elem_of_app. right. exact Hx. Qed.

Lemma head_uncrossed_buy o book :
  Order_side o = Buy -> ordered_by less book -> head_uncrossed o book ->
  forall ka, ka ∈ keys book -> Order_price o < ka.
Proof.
  intros Hside Hord Hhead ka Hka. destruct book as [|[k0 L0] rest]; [inversion Hka|].
  simpl in Hhead. unfold priceMatch in Hhead. rewrite Hside in Hhead.
  rewrite Z.geb_leb in Hhead. apply Z.leb_gt in Hhead.
  apply ordered_by_cons in Hord as [Hbefore _]. rewrite keys_cons in Hka.
  apply elem_of_cons in Hka as [->|Hka]; [exact Hhead|].
  rewrite Forall_forall in Hbefore. specialize (Hbefore ka Hka).
  unfold less in Hbefore. apply Z.ltb_lt in Hbefore. lia.
Qed.

Lemma head_uncrossed_sell o book :
  Order_side o = Sell -> ordered_by greater book -> head_uncrossed o book ->
  forall kb, kb ∈ keys book -> kb < Order_price o.
Proof.
  intros Hside Hord Hhead kb Hkb. destruct book as [|[k0 L0] rest]; [inversion Hkb|].
  simpl in Hhead. unfold priceMatch in Hhead. rewrite Hside in Hhead.
  apply Z.leb_gt in Hhead.
  apply ordered_by_cons in Hord as [Hbefore _]. rewrite keys_cons in Hkb.
  apply elem_of_cons in Hkb as [->|Hkb]; [exact Hhead|].
  rewrite Forall_forall in Hbefore. specialize (Hbefore kb Hkb).
  unfold greater in Hbefore. rewrite Z.gtb_ltb in Hbefore. apply Z.ltb_lt in Hbefore. lia.
Qed.

(** ** Matching *)

Lemma match_inv b o :
  book_inv b -> u64 (Order_remainingQuantity o) ->
  match_ok b o (match_ b o).1.1 (match_ b o).1.2 (match_ b o).2.
Proof.
  intros [Hbids Hasks Hnd Hidx Hunx] Hrem. unfold match_.
  destruct (Order_side o) eqn:Hside.
  - pose proof (matchAgainstBook_ok less (nextNode b) (asks b) o (orderLookup b) Hasks Hrem)
      as Hsweep.
    set (w := matchAgainstBook o (asks b) (orderLookup b)) in *.
    pose proof (so_side _ _ _ _ _ _ Hsweep) as Sside.
    pose proof (so_keys _ _ _ _ _ _ Hsweep) as Skeys.
    pose proof (so_entries _ _ _ _ _ _ Hsweep) as Sentries.
    destruct (Sentries Sell) as (gone & Hent & Hwo).
    unfold book_entries in Hnd, Hidx. rewrite Hent in Hnd, Hidx.
    destruct (indexes_remove _ _ _ _ _ Hnd Hidx Hwo) as [Hnd' Hidx'].
    simpl. split; simpl; rewrite ?Hside; simpl.
    + split; simpl; try assumption.
      intros kb ka Hkb Hka. apply Hunx; [exact Hkb|]. eapply suffix_elem_of; eassumption.
    + reflexivity.
    + reflexivity.
    + exists less. split; [|reflexivity]. destruct w. exact Hsweep.
    + intros Hnone. rewrite (Hwo (Order_id o)), Hnone. destruct (decide _); reflexivity.
  - pose proof (matchAgainstBook_ok greater (nextNode b) (bids b) o (orderLookup b) Hbids Hrem)
      as Hsweep.
    set (w := matchAgainstBook o (bids b) (orderLookup b)) in *.
    pose proof (so_side _ _ _ _ _ _ Hsweep) as Sside.
    pose proof (so_keys _ _ _ _ _ _ Hsweep) as Skeys.
    pose proof (so_entries _ _ _ _ _ _ Hsweep) as Sentries.
    destruct (Sentries Buy) as (gone & Hent & Hwo).
    unfold book_entries in Hnd, Hidx. rewrite Hent in Hnd, Hidx.
    rewrite <- app_assoc in Hnd, Hidx.
    destruct (indexes_remove [] _ _ _ _ Hnd Hidx Hwo) as [Hnd' Hidx'].
    simpl. split; simpl; rewrite ?Hside; simpl.
    + split; simpl; try assumption.
      intros kb ka Hkb Hka. apply Hunx; [|exact Hka]. eapply suffix_elem_of; eassumption.
    + reflexivity.
    + reflexivity.
    + exists greater. split; [|reflexivity]. destruct w. exact Hsweep.
    + intros Hnone. rewrite (Hwo (Order_id o)), Hnone. destruct (decide _); reflexivity.
Qed.

(** ** Resting insertion *)

Section AddToBook.
Context (comp : Price -> Price -> bool) `{!Comparator comp}.

Lemma addToBook_ok s next book lookup o :
  side_ok comp next book ->
  0 < Order_remainingQuantity o < U64_MODULUS ->
  side_ok comp (S next) (addToBook comp o next book lookup).1 /\
  (exists A B,
      side_entries s book = A ++ B /\
      side_entries s (addToBook comp o next book lookup).1 =
        A ++ (Order_id o, mkOrderLocation s (Order_price o) next) :: B) /\
  (forall k, k ∈ keys (addToBook comp o next book lookup).1 ->
             k = Order_price o \/ k ∈ keys book) /\
  (addToBook comp o next book lookup).2 =
    lookup_insert_new (Order_id o)
      (mkOrderLocation (Order_side o) (Order_price o) next) lookup.
Proof.
  intros [Hord Hlevels] Hrem.
  destruct (addToBook_spec comp o next book lookup Hord)
    as (m1 & m2 & L & Heq & Hord' & Hcases).
  rewrite Heq. set (p := Order_price o) in *.
  assert (Hparts :
    Forall (fun kl => level_ok next kl.1 kl.2) m1 /\
    Forall (fun kl => level_ok next kl.1 kl.2) m2 /\
    (level_ok next p L \/ L = Level_default) /\
    side_entries s book =
      (side_entries s m1 ++ map (node_entry s p) (Level_orders L)) ++ side_entries s m2 /\
    (forall k, k ∈ keys m1 \/ k ∈ keys m2 -> k ∈ keys book)).
  { destruct Hcases as [->|[-> ->]].
    - apply Forall_app in Hlevels as [H1 H2]. apply Forall_cons in H2 as [HL H2].
      repeat split; try assumption.
      + left. exact HL.
      + rewrite side_entries_app, side_entries_cons, app_assoc. reflexivity.
      + intros k. rewrite keys_app, keys_cons, elem_of_app, elem_of_cons. tauto.
    - apply Forall_app in Hlevels as [H1 H2].
      repeat split; try assumption.
      + right. reflexivity.
      + rewrite side_entries_app. simpl. rewrite app_nil_r. reflexivity.
      + intros k. rewrite keys_app, elem_of_app. tauto. }
  destruct Hparts as (H1 & H2 & HL & Hent & Hkeys).
  split; [|split; [|split]].
  - split; [eapply (ordered_by_replace comp); exact Hord'|].
    apply Forall_app. split.
    + eapply Forall_impl; [exact H1|]. intros [k l]. apply level_ok_mono. lia.
    + constructor.
      * simpl. apply level_push_ok; [exact HL | reflexivity | exact Hrem].
      * eapply Forall_impl; [exact H2|]. intros [k l]. apply level_ok_mono. lia.
  - eexists _, _. split; [exact Hent|].
    rewrite side_entries_app, side_entries_cons. unfold level_push. simpl.
    rewrite map_app. simpl. rewrite <- !app_assoc. reflexivity.
  - intros k. rewrite keys_app, keys_cons, elem_of_app, elem_of_cons.
    intros [Hk|[Hk|Hk]]; [right; apply Hkeys; tauto | left; exact Hk | right; apply Hkeys; tauto].
  - reflexivity.
Qed.
End AddToBook.

(** ** [addOrder] and [cancelOrder] keep the invariant *)

Lemma addOrder_run_new b o :
  orderLookup b !! Order_id o = None ->
  addOrder_run b o =
    ((match_ b o).1.1, (match_ b o).1.2,
     if isFilled (match_ b o).1.2 then (match_ b o).2
     else rested (match_ b o).1.2 (match_ b o).2).
Proof.
  intros Hnone. unfold addOrder_run, rested. rewrite Hnone.
  destruct (match_ b o) as [[trades o'] b1]. cbn [fst snd].
  destruct (isFilled o'); cbn [negb]; [reflexivity|].
  destruct (Order_side o').
  - destruct (addToBook greater o' (nextNode b1) (bids b1) (orderLookup b1)). reflexivity.
  - destruct (addToBook less o' (nextNode b1) (asks b1) (orderLookup b1)). reflexivity.
Qed.

Lemma addOrder_run_duplicate b o :
  is_Some (orderLookup b !! Order_id o) -> addOrder_run b o = ([], o, b).
Proof. intros [loc Hloc]. unfold addOrder_run. rewrite Hloc. reflexivity. Qed.

Lemma addOrder_eq b o : addOrder b o = ((addOrder_run b o).1.1, (addOrder_run b o).2).
Proof. unfold addOrder. destruct (addOrder_run b o) as [[trades o'] b']. reflexivity. Qed.

Lemma rested_inv b1 o' :
  book_inv b1 ->
  0 < Order_remainingQuantity o' < U64_MODULUS ->
  orderLookup b1 !! Order_id o' = None ->
  head_uncrossed o' (opposite_side (Order_side o') b1) ->
  book_inv (rested o' b1).
Proof.
  intros [Hbids Hasks Hnd Hidx Hunx] Hlive Habsent Hstop. unfold rested.
  destruct (Order_side o') eqn:Hside; cbn [opposite_side] in Hstop.
  - destruct (addToBook_ok greater Buy (nextNode b1) (bids b1) (orderLookup b1) o' Hbids Hlive)
      as (Hside' & (A & B & Hent & Hent') & Hkeys & Hlk).
    set (r := addToBook greater o' (nextNode b1) (bids b1) (orderLookup b1)) in *.
    unfold book_entries in Hnd, Hidx. rewrite Hent, <- app_assoc in Hnd, Hidx.
    destruct (indexes_insert _ _ _ _
                (mkOrderLocation (Order_side o') (Order_price o') (nextNode b1))
                Hnd Hidx Habsent) as [Hnd' Hidx'].
    rewrite <- Hlk in Hidx'. rewrite Hside in Hnd', Hidx'.
    split; cbn [bids asks orderLookup nextNode].
    + exact Hside'.
    + eapply side_ok_mono; [|exact Hasks]. lia.
    + unfold book_entries. cbn [bids asks]. rewrite Hent', <- app_assoc. exact Hnd'.
    + unfold book_entries. cbn [bids asks]. rewrite Hent', <- app_assoc. exact Hidx'.
    + intros kb ka Hkb Hka. destruct (Hkeys kb Hkb) as [->|Hold]; [|apply Hunx; assumption].
      eapply head_uncrossed_buy; try eassumption. apply Hasks.
  - destruct (addToBook_ok less Sell (nextNode b1) (asks b1) (orderLookup b1) o' Hasks Hlive)
      as (Hside' & (A & B & Hent & Hent') & Hkeys & Hlk).
    set (r := addToBook less o' (nextNode b1) (asks b1) (orderLookup b1)) in *.
    unfold book_entries in Hnd, Hidx. rewrite Hent, app_assoc in Hnd, Hidx.
    destruct (indexes_insert _ _ _ _
                (mkOrderLocation (Order_side o') (Order_price o') (nextNode b1))
                Hnd Hidx Habsent) as [Hnd' Hidx'].
    rewrite <- Hlk in Hidx'. rewrite Hside in Hnd', Hidx'.
    split; cbn [bids asks orderLookup nextNode].
    + eapply side_ok_mono; [|exact Hbids]. lia.
    + exact Hside'.
    + unfold book_entries. cbn [bids asks]. rewrite Hent', app_assoc. exact Hnd'.
    + unfold book_entries. cbn [bids asks]. rewrite Hent', app_assoc. exact Hidx'.
    + intros kb ka Hkb Hka. destruct (Hkeys ka Hka) as [->|Hold]; [|apply Hunx; assumption].
      eapply head_uncrossed_sell; try eassumption. apply Hbids.
Qed.

(** The incoming order after matching differs from the submitted one in its
    remaining quantity only, and rests only with a positive remainder that
    no level left on the opposite side crosses. *)
Lemma match_residual b o :
  book_inv b -> u64 (Order_remainingQuantity o) ->
  (match_ b o).1.2 = setRemaining o (Order_remainingQuantity (match_ b o).1.2) /\
  u64 (Order_remainingQuantity (match_ b o).1.2) /\
  (isFilled (match_ b o).1.2 = false ->
   head_uncrossed (match_ b o).1.2
     (opposite_side (Order_side (match_ b o).1.2) (match_ b o).2)).
Proof.
  intros Hinv Hrem.
  destruct (match_inv b o Hinv Hrem) as [_ _ _ (comp & Hsweep & _) _].
  destruct Hsweep as [_ _ _ _ _ Hincoming Hu64 Hstop _ _].
  cbn [bw_incoming bw_book] in *.
  split; [exact Hincoming|]. split; [exact Hu64|].
  intros Hopen. specialize (Hstop Hopen). rewrite Hincoming at 1 2.
  cbn [setRemaining Order_side].
  destruct (opposite_side (Order_side o) (match_ b o).2) as [|[k L] rest]; [exact I|].
  exact Hstop.
Qed.

Lemma addOrder_inv b o : book_inv b -> u64_order o -> book_inv (addOrder b o).2.
Proof.
  intros Hinv (_ & _ & _ & Hrem). rewrite addOrder_eq. cbn [snd].
  destruct (orderLookup b !! Order_id o) as [loc|] eqn:Hlook.
  { rewrite addOrder_run_duplicate by (rewrite Hlook; eauto). exact Hinv. }
  rewrite (addOrder_run_new b o Hlook). cbn [snd].
  destruct (match_inv b o Hinv Hrem) as [Hinv1 _ _ _ Habsent].
  destruct (match_residual b o Hinv Hrem) as (Hincoming & Hu64 & Hstop).
  destruct (isFilled (match_ b o).1.2) eqn:Hfilled; [exact Hinv1|].
  apply rested_inv.
  - exact Hinv1.
  - apply isFilled_false in Hfilled. unfold u64 in Hu64. lia.
  - rewrite Hincoming. apply Habsent, Hlook.
  - apply Hstop. reflexivity.
Qed.

Lemma index_without_one (lookup : gmap Z OrderLocation) i :
  index_without lookup [i] (delete i lookup).
Proof. apply index_without_delete, index_without_nil. Qed.

(** An index entry lies on the side it names. *)
Lemma book_entries_side b orderId loc :
  (orderId, loc) ∈ book_entries b ->
  (orderId, loc) ∈ side_entries (OrderLocation_side loc) (own_side (OrderLocation_side loc) b).
Proof.
  unfold book_entries. rewrite elem_of_app. intros [H|H].
  - pose proof (side_entries_side _ _ _ H) as Hs. simpl in Hs. rewrite Hs. exact H.
  - pose proof (side_entries_side _ _ _ H) as Hs. simpl in Hs. rewrite Hs. exact H.
Qed.

Lemma cancelOrder_inv b orderId : book_inv b -> book_inv (cancelOrder b orderId).2.
Proof.
  intros Hinv. unfold cancelOrder.
  destruct (orderLookup b !! orderId) as [loc|] eqn:Hlook; [|exact Hinv].
  destruct Hinv as [Hbids Hasks Hnd Hidx Hunx].
  pose proof (proj1 (Hidx orderId loc) Hlook) as Hin.
  apply book_entries_side in Hin.
  pose proof (index_without_one (orderLookup b) orderId) as Hwo.
  destruct (OrderLocation_side loc) eqn:Hside; simpl in *.
  - destruct (cancelInSide_ok greater _ _ _ _ _ Hbids Hin)
      as (Hside' & (A & B & Hent & Hent') & Hkeys & _).
    unfold book_entries in Hnd, Hidx. rewrite Hent, <- app_assoc in Hnd, Hidx.
    destruct (indexes_remove A [(orderId, loc)] _ _ _ Hnd Hidx Hwo) as [Hnd' Hidx'].
    split; simpl; try assumption.
    + unfold book_entries. simpl. rewrite Hent', <- app_assoc. exact Hnd'.
    + unfold book_entries. simpl. rewrite Hent', <- app_assoc. exact Hidx'.
    + intros kb ka Hkb Hka. apply Hunx; [apply Hkeys, Hkb | exact Hka].
  - destruct (cancelInSide_ok less _ _ _ _ _ Hasks Hin)
      as (Hside' & (A & B & Hent & Hent') & Hkeys & _).
    unfold book_entries in Hnd, Hidx. rewrite Hent, app_assoc in Hnd, Hidx.
    destruct (indexes_remove _ [(orderId, loc)] _ _ _ Hnd Hidx Hwo) as [Hnd' Hidx'].
    split; simpl; try assumption.
    + unfold book_entries. simpl. rewrite Hent', app_assoc. exact Hnd'.
    + unfold book_entries. simpl. rewrite Hent', app_assoc. exact Hidx'.
    + intros kb ka Hkb Hka. apply Hunx; [exact Hkb | apply Hkeys, Hka].
Qed.

Theorem reachable_inv b : reachable b -> book_inv b.
Proof.
  induction 1 as [|b o _ IH Ho|b orderId _ IH].
  - exact book_inv_empty.
  - apply addOrder_inv; assumption.
  - apply cancelOrder_inv; assumption.
Qed.

Lemma addOrder_duplicate_eq b o :
  is_Some (orderLookup b !! Order_id o) -> addOrder b o = ([], b).
Proof. intros H. rewrite addOrder_eq, addOrder_run_duplicate by exact H. reflexivity. Qed.

(** * Properties of the engine *)

Lemma highest_elem ps p : highest ps = Some p -> p ∈ ps.
Proof.
  destruct ps as [|q rest]; [discriminate|]. simpl. intros [= <-].
  induction rest as [|r rest IH]; simpl; [left|].
  destruct (Z.max_spec r (foldr Z.max q rest)) as [[_ ->]|[_ ->]].
  - apply elem_of_cons in IH as [->|IH]; [left | right; right; exact IH].
  - right. left.
Qed.

Lemma lowest_elem ps p : lowest ps = Some p -> p ∈ ps.
Proof.
  destruct ps as [|q rest]; [discriminate|]. simpl. intros [= <-].
  induction rest as [|r rest IH]; simpl; [left|].
  destruct (Z.min_spec r (foldr Z.min q rest)) as [[_ ->]|[_ ->]].
  - right. left.
  - apply elem_of_cons in IH as [->|IH]; [left | right; right; exact IH].
Qed.

Lemma levelInfos_prices book : map LevelInfo_price (levelInfos book) = keys book.
Proof.
  induction book as [|[k L] rest IH]; [reflexivity|].
  rewrite keys_cons, <- IH. reflexivity.
Qed.

Lemma u64_order_small (id : Z) (s : Side) (p q : Z) :
  u64 id -> u64 p -> u64 q -> u64_order (newOrder id s p q).
Proof. intros H1 H2 H3. unfold u64_order. simpl. tauto. Qed.

(** ** No crossed book *)

(** C1. After [addOrder] returns on a reachable book, the highest bid price
    is strictly below the lowest ask price whenever both sides are non-empty. *)
Theorem uncrossed_after_add (b : OrderBook) (o : Order) (pb pa : Z) :
  reachable b -> u64_order o ->
  bestBid (addOrder b o).2 = Some pb ->
  bestAsk (addOrder b o).2 = Some pa ->
  pb < pa.
Proof.
  intros Hreach Ho Hbid Hask.
  pose proof (reachable_inv _ (reachable_add b o Hreach Ho)) as Hinv.
  apply highest_elem in Hbid. apply lowest_elem in Hask.
  unfold getBids, getAsks in *. rewrite levelInfos_prices in Hbid, Hask.
  exact (inv_uncrossed _ Hinv pb pa Hbid Hask).
Qed.

Lemma uncrossed_after_add_witness :
  bestBid (addOrder (addOrder emptyBook (newOrder 1 Buy 100 10)).2 (newOrder 2 Sell 101 5)).2
    = Some 100 /\
  bestAsk (addOrder (addOrder emptyBook (newOrder 1 Buy 100 10)).2 (newOrder 2 Sell 101 5)).2
    = Some 101 /\
  100 < 101.
Proof.
  assert (Hbid : bestBid (addOrder (addOrder emptyBook (newOrder 1 Buy 100 10)).2
                   (newOrder 2 Sell 101 5)).2 = Some 100) by (vm_compute; reflexivity).
  assert (Hask : bestAsk (addOrder (addOrder emptyBook (newOrder 1 Buy 100 10)).2
                   (newOrder 2 Sell 101 5)).2 = Some 101) by (vm_compute; reflexivity).
  split; [exact Hbid|]. split; [exact Hask|].
  apply (uncrossed_after_add (addOrder emptyBook (newOrder 1 Buy 100 10)).2
           (newOrder 2 Sell 101 5) 100 101).
  - apply reachable_add; [apply reachable_empty|].
    apply u64_order_small; unfold u64, U64_MODULUS; lia.
  - apply u64_order_small; unfold u64, U64_MODULUS; lia.
  - exact Hbid.
  - exact Hask.
Defined.

(** ** Seed scenario 4 *)

(** C2. On the book holding Sell 1 (100, 2), Sell 2 (100, 3) and Sell 3
    (101, 4), the order Buy 4 (101, 8) trades (100,2,1,4), (100,3,2,4) and
    (101,3,3,4) in that order and leaves asks [(101,1)] and no bids. *)
Theorem sweep_price_time_priority :
  (addOrder sweep_book (newOrder 4 Buy 101 8)).1 =
    [mkTrade 100 2 1 4; mkTrade 100 3 2 4; mkTrade 101 3 3 4] /\
  getAsks (addOrder sweep_book (newOrder 4 Buy 101 8)).2 = [mkLevelInfo 101 1] /\
  getBids (addOrder sweep_book (newOrder 4 Buy 101 8)).2 = [].
Proof. vm_compute. repeat split. Qed.

(** ** Book-update events *)

(** The worker fires the book-update callback for an Add that [addOrder]
    rejects as a duplicate, whenever the submitted quantity is not zero. *)
Lemma duplicate_add_book_update e o :
  is_Some (orderLookup (orderBook e) !! Order_id o) ->
  Order_remainingQuantity o <> 0 ->
  onBookUpdate e = true ->
  processCommand e (AddCommand o) = ([BookUpdateEvent], e).
Proof.
  intros Hdup Hqty Hcb. apply isFilled_false in Hqty.
  destruct e as [book run_flag trade_cb book_cb]. cbn [onBookUpdate orderBook] in *.
  subst book_cb. unfold processCommand.
  cbn [AddCommand Command_type Command_order Command_orderId orderBook].
  rewrite (addOrder_duplicate_eq _ _ Hdup), Hqty. reflexivity.
Qed.

(** C3. The second of two Adds carrying the same id returns no trade and
    leaves the book as it was, and the worker fires the book-update callback
    for it all the same. *)
Theorem duplicate_add_fires_book_update :
  let e1 := (processCommand (startedEngine true true)
               (AddCommand (newOrder 1 Buy 100 5))).2 in
  addOrder (orderBook e1) (newOrder 1 Buy 101 7) = ([], orderBook e1) /\
  processCommand e1 (AddCommand (newOrder 1 Buy 101 7)) = ([BookUpdateEvent], e1) /\
  (run (startedEngine true true)
     [AddCommand (newOrder 1 Buy 100 5); AddCommand (newOrder 1 Buy 101 7)]).1 =
    [BookUpdateEvent; BookUpdateEvent].
Proof. vm_compute. repeat split. Qed.

(** ** Duplicate ids *)

(** C4. [addOrder] of an order whose id is a key of the index returns no
    trade and the book it was given. *)
Theorem addOrder_duplicate_noop (b : OrderBook) (o : Order) :
  is_Some (orderLookup b !! Order_id o) -> addOrder b o = ([], b).
Proof. apply addOrder_duplicate_eq. Qed.

Lemma addOrder_duplicate_noop_witness :
  addOrder (addOrder emptyBook (newOrder 1 Buy 100 5)).2 (newOrder 1 Buy 101 7) =
  ([], (addOrder emptyBook (newOrder 1 Buy 100 5)).2).
Proof.
  apply (addOrder_duplicate_noop (addOrder emptyBook (newOrder 1 Buy 100 5)).2
           (newOrder 1 Buy 101 7)).
  exists (mkOrderLocation Buy 100 0%nat). vm_compute. reflexivity.
Defined.

(** ** Cancellation *)

Lemma filter_all {A} (P : A -> Prop) `{!forall x, Decision (P x)} (l : list A) :
  Forall P l -> filter P l = l.
Proof.
  induction 1 as [|x l Hx _ IH]; [reflexivity|].
  rewrite filter_cons_True by exact Hx. f_equal. exact IH.
Qed.

Lemma ids_apart (l1 l2 : list Order) i :
  NoDup (map Order_id (l1 ++ l2)) ->
  i ∈ map Order_id l1 -> Forall (fun o => Order_id o <> i) l2.
Proof.
  rewrite map_app. intros Hnd Hi. apply list.NoDup_app in Hnd as (_ & Hdisj & _).
  apply Forall_forall. intros o Ho Heq. apply (Hdisj i Hi).
  rewrite <- Heq. apply list_elem_of_In, in_map, list_elem_of_In, Ho.
Qed.

Lemma ids_apart_l (l1 l2 : list Order) i :
  NoDup (map Order_id (l1 ++ l2)) ->
  i ∈ map Order_id l2 -> Forall (fun o => Order_id o <> i) l1.
Proof.
  rewrite map_app. intros Hnd Hi. apply list.NoDup_app in Hnd as (_ & Hdisj & _).
  apply Forall_forall. intros o Ho Heq. apply (Hdisj i); [|exact Hi].
  rewrite <- Heq. apply list_elem_of_In, in_map, list_elem_of_In, Ho.
Qed.

Lemma filter_drop_unique (RA RB : list Order) o :
  NoDup (map Order_id (RA ++ o :: RB)) ->
  filter (fun x => Order_id x <> Order_id o) (RA ++ o :: RB) = RA ++ RB.
Proof.
  intros Hnd. rewrite filter_app, filter_cons_False by tauto.
  assert (Hin : Order_id o ∈ map Order_id (o :: RB)) by (simpl; left).
  pose proof (ids_apart_l RA (o :: RB) _ Hnd Hin) as HA.
  rewrite map_app in Hnd. apply list.NoDup_app in Hnd as (_ & _ & Hnd).
  simpl in Hnd. apply list.NoDup_cons in Hnd as [Hout _].
  rewrite !filter_all; [reflexivity | | exact HA].
  apply Forall_forall. intros x Hx Heq. apply Hout. rewrite <- Heq.
  apply list_elem_of_In, in_map, list_elem_of_In, Hx.
Qed.

Lemma book_entries_ids b :
  (book_entries b).*1 = map Order_id (resting (bids b) ++ resting (asks b)).
Proof. unfold book_entries. rewrite fmap_app, !side_entries_ids, map_app. reflexivity. Qed.

Lemma side_ok_nonempty comp next book :
  side_ok comp next book -> Forall (fun kl => Level_orders kl.2 <> []) book.
Proof.
  intros [_ Hlevels]. eapply Forall_impl; [exact Hlevels|].
  intros [k L] HL. apply HL.
Qed.

(** In a reachable book every index entry names a level that exists on the
    side it names and a node of that level's FIFO holding the indexed order. *)
Lemma iterator_valid b orderId loc :
  reachable b -> orderLookup b !! orderId = Some loc ->
  exists L o,
    map_find (OrderLocation_price loc) (own_side (OrderLocation_side loc) b) = Some L /\
    node_deref (OrderLocation_iterator loc) (Level_orders L) = Some o /\
    Order_id o = orderId.
Proof.
  intros Hreach Hlook. destruct (reachable_inv b Hreach) as [Hbids Hasks _ Hidx _].
  pose proof (proj1 (Hidx orderId loc) Hlook) as Hin. apply book_entries_side in Hin.
  assert (Hspec : exists comp, Comparator comp /\
            side_ok comp (nextNode b) (own_side (OrderLocation_side loc) b)).
  { destruct (OrderLocation_side loc); [exists greater | exists less];
      (split; [typeclasses eauto | assumption]). }
  destruct Hspec as (comp & Hcomp & Hside).
  destruct (cancelInSide_spec comp _ _ _ _ _ Hside Hin)
    as (m1 & L & m2 & f1 & o & f2 & Hbook & Hfifo & Hid & _ & _).
  exists L, o. destruct Hside as [Hord Hlevels]. rewrite Hbook in Hord, Hlevels.
  destruct (ordered_by_key_once comp _ _ _ _ Hord) as [Hk1 _].
  apply Forall_app in Hlevels as [_ Hlevels].
  apply Forall_cons in Hlevels as [[_ _ _ _ Hrefs _] _]. cbn [fst snd] in Hrefs.
  rewrite Hfifo, fmap_app, fmap_cons in Hrefs.
  apply list.NoDup_app in Hrefs as (_ & Hdisj & _).
  rewrite Hbook, map_find_app by exact Hk1. rewrite Hfifo, node_deref_app.
  - repeat split. exact Hid.
  - intros Hit. apply (Hdisj _ Hit). left.
Qed.

(** What a successful [cancelOrder] does to a book that satisfies the
    invariant. *)
Lemma cancelOrder_removes b orderId loc :
  book_inv b -> orderLookup b !! orderId = Some loc ->
  resting (bids (cancelOrder b orderId).2) =
    filter (fun o => Order_id o <> orderId) (resting (bids b)) /\
  resting (asks (cancelOrder b orderId).2) =
    filter (fun o => Order_id o <> orderId) (resting (asks b)) /\
  (length (resting (bids (cancelOrder b orderId).2)) +
   length (resting (asks (cancelOrder b orderId).2)) + 1 =
   length (resting (bids b)) + length (resting (asks b)))%nat.
Proof.
  intros Hinv Hlook.
  destruct Hinv as [Hbids Hasks Hnd Hidx Hunx].
  pose proof (proj1 (Hidx orderId loc) Hlook) as Hin.
  apply book_entries_side in Hin.
  rewrite book_entries_ids in Hnd.
  unfold cancelOrder. rewrite Hlook.
  destruct (OrderLocation_side loc) eqn:Hside; cbn [own_side snd bids asks] in *.
  - destruct (cancelInSide_ok greater _ _ _ _ _ Hbids Hin)
      as (_ & _ & _ & (RA & o & RB & Hrest & Hid & Hrest')).
    rewrite Hrest', Hrest. rewrite Hrest in Hnd. subst orderId.
    split; [|split].
    + symmetry. apply filter_drop_unique.
      rewrite map_app in Hnd. apply list.NoDup_app in Hnd as (Hnd & _).
      exact Hnd.
    + symmetry. apply filter_all. eapply ids_apart; [exact Hnd|].
      rewrite map_app. apply elem_of_app. right. simpl. left.
    + rewrite !length_app. simpl. lia.
  - destruct (cancelInSide_ok less _ _ _ _ _ Hasks Hin)
      as (_ & _ & _ & (RA & o & RB & Hrest & Hid & Hrest')).
    rewrite Hrest', Hrest. rewrite Hrest in Hnd. subst orderId.
    split; [|split].
    + symmetry. apply filter_all. eapply ids_apart_l; [exact Hnd|].
      rewrite map_app. apply elem_of_app. right. simpl. left.
    + symmetry. apply filter_drop_unique.
      rewrite map_app in Hnd. apply list.NoDup_app in Hnd as (_ & _ & Hnd).
      exact Hnd.
    + rewrite !length_app. simpl. lia.
Qed.

(** C5. [cancelOrder] returns true exactly for an id held by the index; a
    failed cancel leaves the book as it was; a cancel repeated at once fails
    and changes nothing; and on a reachable book a successful cancel erases
    the index entry, removes that order and no other from the resting orders
    of either side, and leaves no level with an empty FIFO. *)
Theorem cancelOrder_semantics (b : OrderBook) (orderId : Z) :
  ((cancelOrder b orderId).1 = true <-> is_Some (orderLookup b !! orderId)) /\
  ((cancelOrder b orderId).1 = false -> (cancelOrder b orderId).2 = b) /\
  cancelOrder (cancelOrder b orderId).2 orderId = (false, (cancelOrder b orderId).2) /\
  (reachable b -> (cancelOrder b orderId).1 = true ->
   orderLookup (cancelOrder b orderId).2 = delete orderId (orderLookup b) /\
   resting (bids (cancelOrder b orderId).2) =
     filter (fun o => Order_id o <> orderId) (resting (bids b)) /\
   resting (asks (cancelOrder b orderId).2) =
     filter (fun o => Order_id o <> orderId) (resting (asks b)) /\
   (length (resting (bids (cancelOrder b orderId).2)) +
    length (resting (asks (cancelOrder b orderId).2)) + 1 =
    length (resting (bids b)) + length (resting (asks b)))%nat /\
   Forall (fun kl => Level_orders kl.2 <> [])
     (bids (cancelOrder b orderId).2 ++ asks (cancelOrder b orderId).2)).
Proof.
  split; [|split; [|split]].
  - unfold cancelOrder. destruct (orderLookup b !! orderId) as [loc|] eqn:Hlook.
    + destruct (OrderLocation_side loc); simpl; split; eauto.
    + simpl. split; [discriminate | intros [x Hx]; discriminate].
  - unfold cancelOrder. destruct (orderLookup b !! orderId) as [loc|] eqn:Hlook.
    + destruct (OrderLocation_side loc); simpl; discriminate.
    + reflexivity.
  - unfold cancelOrder at 2 3. destruct (orderLookup b !! orderId) as [loc|] eqn:Hlook.
    + destruct (OrderLocation_side loc); cbn [snd];
        unfold cancelOrder; cbn [orderLookup]; rewrite lookup_delete_eq; reflexivity.
    + cbn [snd]. unfold cancelOrder. rewrite Hlook. reflexivity.
  - intros Hreach Htrue.
    pose proof (reachable_inv b Hreach) as Hinv.
    pose proof (cancelOrder_inv b orderId Hinv) as Hinv'.
    destruct (orderLookup b !! orderId) as [loc|] eqn:Hlook.
    2:{ unfold cancelOrder in Htrue. rewrite Hlook in Htrue. discriminate. }
    destruct (cancelOrder_removes b orderId loc Hinv Hlook) as (Hb & Ha & Hlen).
    split; [|split; [exact Hb | split; [exact Ha | split; [exact Hlen|]]]].
    + unfold cancelOrder. rewrite Hlook. destruct (OrderLocation_side loc); reflexivity.
    + apply Forall_app. split.
      * eapply side_ok_nonempty, Hinv'.
      * eapply side_ok_nonempty, Hinv'.
Qed.

Lemma one_bid_book_reachable : reachable one_bid_book.
Proof.
  apply reachable_add; [apply reachable_empty|].
  apply u64_order_small; unfold u64, U64_MODULUS; lia.
Defined.

Lemma cancelOrder_semantics_witness :
  (cancelOrder one_bid_book 1).1 = true /\
  cancelOrder (cancelOrder one_bid_book 1).2 1 = (false, (cancelOrder one_bid_book 1).2) /\
  orderLookup (cancelOrder one_bid_book 1).2 = delete 1 (orderLookup one_bid_book) /\
  resting (bids (cancelOrder one_bid_book 1).2) =
    filter (fun o => Order_id o <> 1) (resting (bids one_bid_book)) /\
  Forall (fun kl => Level_orders kl.2 <> [])
    (bids (cancelOrder one_bid_book 1).2 ++ asks (cancelOrder one_bid_book 1).2).
Proof.
  assert (Htrue : (cancelOrder one_bid_book 1).1 = true) by (vm_compute; reflexivity).
  destruct (cancelOrder_semantics one_bid_book 1) as (_ & _ & Hagain & Hgone).
  destruct (Hgone one_bid_book_reachable Htrue) as (Hidx & Hbids & _ & _ & Hlevels).
  repeat split; assumption.
Defined.

(** ** Invariants of reachable books *)

Lemma overflow_book_reachable : reachable overflow_book.
Proof.
  apply reachable_add; [apply reachable_add; [apply reachable_empty|]|];
    apply u64_order_small; unfold u64, U64_MODULUS; lia.
Defined.

(** C6, as stated, fails: two resting orders of 2^63 at one price leave a
    level whose [totalVolume] is 0 while its orders hold 2^64. *)
Lemma volume_sum_overflow :
  reachable overflow_book /\
  exists L, (100, L) ∈ bids overflow_book /\
    Level_totalVolume L = 0 /\
    sum_remaining (Level_orders L) = 2 ^ 64 /\
    Level_totalVolume L <> sum_remaining (Level_orders L).
Proof.
  split; [exact overflow_book_reachable|].
  exists (mkLevel 100 0 [(0%nat, newOrder 1 Buy 100 (2 ^ 63));
                         (1%nat, newOrder 2 Buy 100 (2 ^ 63))]).
  split; [|split; [|split]].
  - assert (Hb : bids overflow_book =
       [(100, mkLevel 100 0 [(0%nat, newOrder 1 Buy 100 (2 ^ 63));
                             (1%nat, newOrder 2 Buy 100 (2 ^ 63))])])
      by (vm_compute; reflexivity).
    rewrite Hb. left.
  - reflexivity.
  - vm_compute. reflexivity.
  - vm_compute. discriminate.
Qed.

(** C6, amended. In every reachable book each level's [totalVolume] is the
    sum of the remaining quantities of its orders reduced modulo 2^64 (and
    the sum itself when that is below 2^64), no level has an empty FIFO, no
    resting order has remaining quantity 0, and the keys of the index are the
    ids of the resting orders. *)
Theorem reachable_book_invariants (b : OrderBook) :
  reachable b ->
  (forall k L, (k, L) ∈ bids b ++ asks b ->
     Level_totalVolume L = wrap64 (sum_remaining (Level_orders L)) /\
     (sum_remaining (Level_orders L) < U64_MODULUS ->
      Level_totalVolume L = sum_remaining (Level_orders L)) /\
     Level_orders L <> [] /\
     (forall n, n ∈ Level_orders L -> 0 < Order_remainingQuantity n.2)) /\
  dom (orderLookup b) =
    list_to_set (map Order_id (resting (bids b) ++ resting (asks b))).
Proof.
  intros Hreach. destruct (reachable_inv b Hreach) as [Hbids Hasks Hnd Hidx Hunx].
  split.
  - intros k L HkL.
    assert (HL : level_ok (nextNode b) k L).
    { apply elem_of_app in HkL as [H|H].
      - destruct Hbids as [_ Hl]. rewrite Forall_forall in Hl. exact (Hl _ H).
      - destruct Hasks as [_ Hl]. rewrite Forall_forall in Hl. exact (Hl _ H). }
    destruct HL as [_ Hne Hlive Hvol _ _].
    assert (Hpos : forall n, n ∈ Level_orders L -> 0 < Order_remainingQuantity n.2).
    { intros n Hn. rewrite Forall_forall in Hlive. apply (Hlive n Hn). }
    split; [exact Hvol|]. split; [|split; [exact Hne | exact Hpos]].
    intros Hsmall. rewrite Hvol. apply wrap64_u64. split; [|exact Hsmall].
    clear -Hpos. induction (Level_orders L) as [|n f IH]; simpl; [lia|].
    assert (0 < Order_remainingQuantity n.2) by (apply Hpos; left).
    assert (0 <= sum_remaining f) by (apply IH; intros m Hm; apply Hpos; right; exact Hm).
    lia.
  - apply set_eq. intros i. rewrite elem_of_dom, elem_of_list_to_set.
    rewrite <- book_entries_ids. split.
    + intros [loc Hloc]. apply Hidx in Hloc.
      apply list_elem_of_fmap. exists (i, loc). split; [reflexivity | exact Hloc].
    + intros Hi. apply list_elem_of_fmap in Hi as ([j loc] & -> & Hin).
      exists loc. apply Hidx. exact Hin.
Qed.

Lemma reachable_book_invariants_witness :
  (forall k L, (k, L) ∈ bids overflow_book ++ asks overflow_book ->
     Level_totalVolume L = wrap64 (sum_remaining (Level_orders L)) /\
     Level_orders L <> []) /\
  dom (orderLookup overflow_book) =
    list_to_set (map Order_id (resting (bids overflow_book) ++ resting (asks overflow_book))).
Proof.
  destruct (reachable_book_invariants overflow_book overflow_book_reachable) as [Hlevels Hdom].
  split; [|exact Hdom].
  intros k L HkL. destruct (Hlevels k L HkL) as (Hvol & _ & Hne & _).
  split; assumption.
Defined.

(** ** Trades *)

Lemma StronglySorted_weaken {A} (R R' : A -> A -> Prop) (l : list A) :
  (forall x y, R x y -> R' x y) -> StronglySorted R l -> StronglySorted R' l.
Proof.
  intros Himp. induction 1 as [|x l _ IH Hall]; constructor; [exact IH|].
  eapply Forall_impl; [exact Hall|]. intros y. apply Himp.
Qed.

Lemma rested_opposite o' b1 :
  opposite_side (Order_side o') (rested o' b1) = opposite_side (Order_side o') b1.
Proof. unfold rested. destruct (Order_side o'); reflexivity. Qed.

(** The trades and the opposite side of [addOrder] are those of [match]. *)
Lemma addOrder_new_parts b o :
  book_inv b -> u64 (Order_remainingQuantity o) ->
  orderLookup b !! Order_id o = None ->
  (addOrder b o).1 = (match_ b o).1.1 /\
  (addOrder_run b o).1.2 = (match_ b o).1.2 /\
  opposite_side (Order_side o) (addOrder b o).2 = opposite_side (Order_side o) (match_ b o).2.
Proof.
  intros Hinv Hrem Hnone. rewrite addOrder_eq, (addOrder_run_new b o Hnone). cbn [fst snd].
  split; [reflexivity|]. split; [reflexivity|].
  destruct (isFilled (match_ b o).1.2); [reflexivity|].
  destruct (match_residual b o Hinv Hrem) as (Hincoming & _).
  assert (Hside : Order_side o = Order_side (match_ b o).1.2)
    by (rewrite Hincoming; reflexivity).
  rewrite Hside. apply rested_opposite.
Qed.

(** C7. The prices of the trades one [addOrder] returns never decrease for a
    Buy and never increase for a Sell, and each trade carries the price of
    the level of the opposite side in which its maker was resting. *)
Theorem trade_prices_monotone (b : OrderBook) (o : Order) :
  reachable b -> u64_order o ->
  (Order_side o = Buy -> StronglySorted Z.le (map Trade_price (addOrder b o).1)) /\
  (Order_side o = Sell -> StronglySorted Z.ge (map Trade_price (addOrder b o).1)) /\
  Forall (fun t =>
            exists L, (Trade_price t, L) ∈ opposite_side (Order_side o) b /\
                      Level_price L = Trade_price t /\
                      Trade_makerOrderId t ∈ map Order_id (Level_orders L).*2)
         (addOrder b o).1.
Proof.
  intros Hreach (_ & _ & _ & Hrem). pose proof (reachable_inv b Hreach) as Hinv.
  destruct (orderLookup b !! Order_id o) as [loc|] eqn:Hlook.
  { rewrite addOrder_duplicate_eq by (rewrite Hlook; eauto). simpl.
    repeat split; intros; constructor. }
  destruct (addOrder_new_parts b o Hinv Hrem Hlook) as (-> & _ & _).
  destruct (match_inv b o Hinv Hrem) as [_ _ _ (comp & Hsweep & Hcomp) _].
  destruct Hsweep as [_ _ _ _ _ _ _ _ Htrades Hprices]. cbn [bw_trades] in *.
  split; [|split].
  - intros Hside. rewrite Hside in Hcomp. subst comp.
    eapply StronglySorted_weaken; [|exact Hprices].
    intros x y [->|Hlt]; [lia|]. unfold less in Hlt. apply Z.ltb_lt in Hlt. lia.
  - intros Hside. rewrite Hside in Hcomp. subst comp.
    eapply StronglySorted_weaken; [|exact Hprices].
    intros x y [->|Hgt]; [lia|]. unfold greater in Hgt.
    rewrite Z.gtb_ltb in Hgt. apply Z.ltb_lt in Hgt. lia.
  - eapply Forall_impl; [exact Htrades|]. intros t (_ & _ & HL). exact HL.
Qed.

Lemma sweep_book_reachable : reachable sweep_book.
Proof.
  repeat (apply reachable_add;
          [|apply u64_order_small; unfold u64, U64_MODULUS; lia]).
  apply reachable_empty.
Defined.

Lemma trade_prices_monotone_witness :
  StronglySorted Z.le (map Trade_price (addOrder sweep_book (newOrder 4 Buy 101 8)).1) /\
  Forall (fun t =>
            exists L, (Trade_price t, L) ∈ asks sweep_book /\
                      Level_price L = Trade_price t /\
                      Trade_makerOrderId t ∈ map Order_id (Level_orders L).*2)
         (addOrder sweep_book (newOrder 4 Buy 101 8)).1.
Proof.
  assert (Ho : u64_order (newOrder 4 Buy 101 8))
    by (apply u64_order_small; unfold u64, U64_MODULUS; lia).
  destruct (trade_prices_monotone sweep_book (newOrder 4 Buy 101 8) sweep_book_reachable Ho)
    as (Hbuy & _ & Hmakers).
  split; [apply Hbuy; reflexivity | exact Hmakers].
Defined.

(** C8. The quantities of the trades one [addOrder] returns add up to half
    of what the call took off remaining quantities: the decrease of the
    incoming order plus the decrease of the side it matched against, in which
    only the makers it traded with changed.  Each of the two decreases equals
    the traded sum by itself. *)
Theorem trade_conservation (b : OrderBook) (o : Order) :
  reachable b -> u64_order o ->
  let taker_decrease :=
    Order_remainingQuantity o - Order_remainingQuantity (addOrder_run b o).1.2 in
  let makers_decrease :=
    side_remaining (opposite_side (Order_side o) b) -
    side_remaining (opposite_side (Order_side o) (addOrder b o).2) in
  sum_quantity (addOrder b o).1 = (taker_decrease + makers_decrease) / 2 /\
  sum_quantity (addOrder b o).1 = taker_decrease /\
  sum_quantity (addOrder b o).1 = makers_decrease.
Proof.
  intros Hreach (_ & _ & _ & Hrem). pose proof (reachable_inv b Hreach) as Hinv.
  assert (Hboth :
    sum_quantity (addOrder b o).1 =
      Order_remainingQuantity o - Order_remainingQuantity (addOrder_run b o).1.2 /\
    sum_quantity (addOrder b o).1 =
      side_remaining (opposite_side (Order_side o) b) -
      side_remaining (opposite_side (Order_side o) (addOrder b o).2)).
  { destruct (orderLookup b !! Order_id o) as [loc|] eqn:Hlook.
    - rewrite addOrder_duplicate_eq, addOrder_run_duplicate by (rewrite Hlook; eauto).
      simpl. lia.
    - destruct (addOrder_new_parts b o Hinv Hrem Hlook) as (-> & -> & ->).
      destruct (match_inv b o Hinv Hrem) as [_ _ _ (comp & Hsweep & _) _].
      destruct Hsweep as [_ _ _ Htaker Hmakers _ _ _ _ _].
      cbn [bw_trades bw_incoming bw_book] in *. split; assumption. }
  destruct Hboth as [Ht Hm]. cbv zeta. split; [|split; assumption].
  rewrite <- Ht, <- Hm.
  replace (sum_quantity (addOrder b o).1 + sum_quantity (addOrder b o).1)
    with (sum_quantity (addOrder b o).1 * 2) by lia.
  symmetry. apply Z.div_mul. lia.
Qed.

Lemma trade_conservation_witness :
  sum_quantity (addOrder sweep_book (newOrder 4 Buy 101 8)).1 = 8 /\
  sum_quantity (addOrder sweep_book (newOrder 4 Buy 101 8)).1 =
    ((Order_remainingQuantity (newOrder 4 Buy 101 8) -
      Order_remainingQuantity (addOrder_run sweep_book (newOrder 4 Buy 101 8)).1.2) +
     (side_remaining (asks sweep_book) -
      side_remaining (asks (addOrder sweep_book (newOrder 4 Buy 101 8)).2))) / 2.
Proof.
  assert (Ho : u64_order (newOrder 4 Buy 101 8))
    by (apply u64_order_small; unfold u64, U64_MODULUS; lia).
  destruct (trade_conservation sweep_book (newOrder 4 Buy 101 8) sweep_book_reachable Ho)
    as (Hhalf & _ & _).
  split; [vm_compute; reflexivity | exact Hhalf].
Defined.

(** ** Add followed by cancel *)

(** C9. On the empty book, [addOrder] of an order whose remaining quantity is
    its initial quantity and positive, followed by [cancelOrder] of its id:
    the cancel returns true and both sides and the index are empty. *)
Theorem cancel_undoes_add (o : Order) :
  Order_remainingQuantity o = Order_initialQuantity o ->
  0 < Order_initialQuantity o ->
  (cancelOrder (addOrder emptyBook o).2 (Order_id o)).1 = true /\
  bids (cancelOrder (addOrder emptyBook o).2 (Order_id o)).2 = [] /\
  asks (cancelOrder (addOrder emptyBook o).2 (Order_id o)).2 = [] /\
  orderLookup (cancelOrder (addOrder emptyBook o).2 (Order_id o)).2 = ∅.
Proof.
  intros Heq Hpos.
  assert (Hopen : isFilled o = false) by (apply isFilled_false; lia).
  destruct o as [id side price initial remaining]. simpl in *.
  unfold addOrder, addOrder_run, match_. simpl.
  rewrite lookup_empty. destruct side; simpl; rewrite Hopen; simpl;
    unfold addToBook, lookup_insert_new; simpl; rewrite Z.eqb_refl, lookup_empty; simpl;
    unfold cancelOrder; simpl; rewrite lookup_insert_eq; simpl;
    unfold cancelInSide; simpl; rewrite Z.eqb_refl; simpl;
    rewrite delete_insert_eq, delete_empty; repeat split.
Qed.

Lemma cancel_undoes_add_witness :
  (cancelOrder (addOrder emptyBook (newOrder 1 Buy 100 5)).2 1).1 = true /\
  bids (cancelOrder (addOrder emptyBook (newOrder 1 Buy 100 5)).2 1).2 = [] /\
  asks (cancelOrder (addOrder emptyBook (newOrder 1 Buy 100 5)).2 1).2 = [] /\
  orderLookup (cancelOrder (addOrder emptyBook (newOrder 1 Buy 100 5)).2 1).2 = ∅.
Proof.
  apply (cancel_undoes_add (newOrder 1 Buy 100 5)); [reflexivity | simpl; lia].
Defined.

(** ** Zero quantity *)

(** C10. [addOrder] of an order with remaining quantity 0 and an id the index
    does not hold returns no trade and the book it was given, and the worker
    fires neither callback for such an Add. *)
Theorem zero_quantity_add_noop (b : OrderBook) (o : Order) :
  Order_remainingQuantity o = 0 ->
  orderLookup b !! Order_id o = None ->
  addOrder b o = ([], b) /\
  forall e, orderBook e = b ->
    processCommand e (AddCommand o) = ([], e) /\
    (running e = true -> run e [AddCommand o] = ([], e)).
Proof.
  intros Hzero Hnone.
  assert (Hfilled : isFilled o = true) by (apply isFilled_true; exact Hzero).
  assert (Hadd : addOrder b o = ([], b)).
  { unfold addOrder, addOrder_run, match_. rewrite Hnone.
    destruct (Order_side o); rewrite (matchAgainstBook_filled _ _ _ Hfilled); simpl;
      rewrite Hfilled; simpl; destruct b; reflexivity. }
  split; [exact Hadd|].
  intros e <-.
  assert (Hstep : processCommand e (AddCommand o) = ([], e)).
  { unfold processCommand. simpl. rewrite Hadd, Hfilled. simpl. destruct e; reflexivity. }
  split; [exact Hstep|].
  intros Hrun. simpl. rewrite Hrun, Hstep. reflexivity.
Qed.

Lemma zero_quantity_add_noop_witness :
  addOrder one_bid_book (newOrder 2 Sell 100 0) = ([], one_bid_book) /\
  processCommand (mkMatchingEngine one_bid_book true true true)
    (AddCommand (newOrder 2 Sell 100 0)) =
  ([], mkMatchingEngine one_bid_book true true true).
Proof.
  assert (Hzero : Order_remainingQuantity (newOrder 2 Sell 100 0) = 0) by reflexivity.
  assert (Hnone : orderLookup one_bid_book !! Order_id (newOrder 2 Sell 100 0) = None)
    by (vm_compute; reflexivity).
  destruct (zero_quantity_add_noop one_bid_book (newOrder 2 Sell 100 0) Hzero Hnone)
    as [Hadd Hengine].
  split; [exact Hadd|].
  destruct (Hengine (mkMatchingEngine one_bid_book true true true) eq_refl) as [Hstep _].
  exact Hstep.
Defined.

(** * The shape of a sweep *)

Global Instance Side_eq_dec : EqDecision Side.
Proof. solve_decision. Defined.

Lemma priced_cons k L book :
  priced ((k, L) :: book) = map (fun n : Node => (k, n.2)) (Level_orders L) ++ priced book.
Proof. reflexivity. Qed.

Lemma priced_app m1 m2 : priced (m1 ++ m2) = priced m1 ++ priced m2.
Proof. apply flat_map_app. Qed.

Lemma priced_resting book : (priced book).*2 = resting book.
Proof.
  induction book as [|[k L] rest IH]; [reflexivity|].
  rewrite priced_cons, resting_cons, fmap_app, IH. f_equal.
  induction (Level_orders L) as [|[it o] f IHf]; [reflexivity|].
  cbn [map]. rewrite !fmap_cons, IHf. reflexivity.
Qed.

Lemma matchLevel_swept p fifo : forall incoming tv lookup,
  Forall live fifo ->
  u64 (Order_remainingQuantity incoming) ->
  swept (Order_id incoming)
    (map (fun n : Node => (p, n.2)) fifo)
    (lw_trades (matchLevel p fifo incoming tv lookup))
    (map (fun n : Node => (p, n.2)) (lw_orders (matchLevel p fifo incoming tv lookup))).
Proof.
  induction fifo as [|[it bo] rest IH]; intros incoming tv lookup Hlive Hin.
  - exists [], []. split; [reflexivity|]. left. split; reflexivity.
  - apply Forall_cons in Hlive as [Hbo Hrest]. unfold live in Hbo. cbn [snd] in Hbo.
    cbn [matchLevel]. destruct (isFilled incoming) eqn:Hfilled.
    { exists [], (map (fun n : Node => (p, n.2)) ((it, bo) :: rest)).
      split; [reflexivity|]. left. split; reflexivity. }
    apply isFilled_false in Hfilled.
    set (q := Z.min (Order_remainingQuantity incoming) (Order_remainingQuantity bo)).
    assert (Hq : (0 < q) /\ (q <= Order_remainingQuantity incoming) /\
                 (q <= Order_remainingQuantity bo)) by (unfold u64 in Hin; lia).
    assert (Ha : wrap64 (Order_remainingQuantity incoming - q) =
                 Order_remainingQuantity incoming - q)
      by (apply wrap64_u64; unfold u64 in *; lia).
    assert (Hb : wrap64 (Order_remainingQuantity bo - q) =
                 Order_remainingQuantity bo - q)
      by (apply wrap64_u64; unfold u64 in *; lia).
    rewrite Ha, Hb.
    destruct (isFilled (setRemaining bo (Order_remainingQuantity bo - q))) eqn:Hmaker.
    + apply isFilled_true in Hmaker. cbn [setRemaining Order_remainingQuantity] in Hmaker.
      assert (Hin' : u64 (Order_remainingQuantity
                       (setRemaining incoming (Order_remainingQuantity incoming - q))))
        by (cbn [setRemaining Order_remainingQuantity]; unfold u64 in *; lia).
      destruct (IH (setRemaining incoming (Order_remainingQuantity incoming - q))
                   (wrap64 (tv - q)) (delete (Order_id (setRemaining bo (Order_remainingQuantity bo - q))) lookup) Hrest Hin')
        as (gone & kept & Hsplit & Hcases).
      cbn [lw_trades lw_orders setRemaining Order_id] in *.
      exists ((p, bo) :: gone), kept. split; [cbn [map]; rewrite Hsplit; reflexivity|].
      assert (Hfull : mkTrade p q (Order_id bo) (Order_id incoming) =
                      full_fill (Order_id incoming) (p, bo)).
      { unfold full_fill. cbn [fst snd]. f_equal. lia. }
      rewrite Hfull.
      destruct Hcases as [[Hafter Htrades]|(p' & o & rest' & q' & Hkept & Hafter & Hq' & Htrades)].
      * left. split; [exact Hafter|]. rewrite Htrades. reflexivity.
      * right. exists p', o, rest', q'. repeat split; try assumption; try lia.
        rewrite Htrades. reflexivity.
    + apply isFilled_false in Hmaker. cbn [setRemaining Order_remainingQuantity] in Hmaker.
      assert (Hzero : Order_remainingQuantity incoming - q = 0) by lia.
      assert (Hrec : matchLevel p rest
                (setRemaining incoming (Order_remainingQuantity incoming - q))
                (wrap64 (tv - q)) lookup =
              mkLevelWalk [] (setRemaining incoming (Order_remainingQuantity incoming - q))
                (wrap64 (tv - q)) rest lookup).
      { destruct rest as [|[it' bo'] rest']; [reflexivity|].
        cbn [matchLevel]. unfold isFilled at 1.
        cbn [setRemaining Order_remainingQuantity]. rewrite Hzero. reflexivity. }
      rewrite Hrec. cbn [lw_trades lw_orders].
      exists [], (map (fun n : Node => (p, n.2)) ((it, bo) :: rest)).
      split; [reflexivity|]. right.
      exists p, bo, (map (fun n : Node => (p, n.2)) rest), (Order_remainingQuantity bo - q).
      cbn [map snd]. repeat split; try lia.
      cbn [map app]. do 2 f_equal. lia.
Qed.

Lemma swept_prepend taker l before trades after :
  swept taker before trades after ->
  swept taker (l ++ before) (map (full_fill taker) l ++ trades) after.
Proof.
  intros (gone & kept & -> & Hcases). exists (l ++ gone), kept.
  split; [rewrite app_assoc; reflexivity|].
  destruct Hcases as [[-> ->]|(p & o & rest & q & -> & -> & Hq & ->)].
  - left. split; [reflexivity|]. rewrite map_app. reflexivity.
  - right. exists p, o, rest, q. repeat split; try lia.
    rewrite map_app, app_assoc. reflexivity.
Qed.

Lemma swept_append taker before trades after tail :
  after <> [] ->
  swept taker before trades after ->
  swept taker (before ++ tail) trades (after ++ tail).
Proof.
  intros Hne (gone & kept & -> & Hcases). exists gone, (kept ++ tail).
  split; [rewrite app_assoc; reflexivity|].
  destruct Hcases as [[-> ->]|(p & o & rest & q & -> & -> & Hq & ->)].
  - left. split; reflexivity.
  - right. exists p, o, (rest ++ tail), q. repeat split; try lia.
Qed.

Lemma matchLevel_id p fifo : forall incoming tv lookup,
  Order_id (lw_incoming (matchLevel p fifo incoming tv lookup)) = Order_id incoming.
Proof.
  induction fifo as [|[it bo] rest IH]; intros incoming tv lookup; [reflexivity|].
  cbn [matchLevel]. destruct (isFilled incoming); [reflexivity|].
  destruct (isFilled _); cbn [lw_incoming]; rewrite IH; reflexivity.
Qed.

Lemma matchAgainstBook_swept comp next book : forall incoming lookup,
  side_ok comp next book ->
  u64 (Order_remainingQuantity incoming) ->
  swept (Order_id incoming) (priced book)
    (bw_trades (matchAgainstBook incoming book lookup))
    (priced (bw_book (matchAgainstBook incoming book lookup))).
Proof.
  induction book as [|[k level] rest IH]; intros incoming lookup Hside Hin.
  - exists [], []. split; [reflexivity|]. left. split; reflexivity.
  - assert (Hstay : swept (Order_id incoming) (priced ((k, level) :: rest)) []
                      (priced ((k, level) :: rest))).
    { exists [], (priced ((k, level) :: rest)). split; [reflexivity|]. left.
      split; reflexivity. }
    cbn [matchAgainstBook]. destruct (isFilled incoming) eqn:Hfilled; [exact Hstay|].
    destruct (priceMatch incoming (Level_price level)) eqn:Hcross; cbn [negb]; [|exact Hstay].
    destruct Hside as [Hord Hlevels].
    apply Forall_cons in Hlevels as [Hlevel Hlevels]. cbn [fst snd] in Hlevel.
    destruct Hlevel as [Hprice Hnonempty Hlive Hvolume Hrefs Hfresh].
    apply (ordered_by_cons comp) in Hord as [_ Hord].
    assert (Htv : u64 (Level_totalVolume level)) by (rewrite Hvolume; apply wrap64_range).
    pose proof (matchLevel_ok (Level_price level) (Level_orders level) incoming
                  (Level_totalVolume level) lookup Hlive Hin Htv) as Hw.
    pose proof (matchLevel_swept (Level_price level) (Level_orders level) incoming
                  (Level_totalVolume level) lookup Hlive Hin) as Hshape.
    pose proof (matchLevel_id (Level_price level) (Level_orders level) incoming
                  (Level_totalVolume level) lookup) as Hid.
    set (lw := matchLevel (Level_price level) (Level_orders level) incoming
                 (Level_totalVolume level) lookup) in *.
    rewrite Hprice in Hshape.
    destruct (fifo_empty (lw_orders lw)) eqn:Hempty.
    + apply fifo_empty_true in Hempty. cbn [bw_trades bw_book].
      specialize (IH (lw_incoming lw) (lw_lookup lw) (conj Hord Hlevels)
                    (wo_incoming_u64 _ _ _ _ _ _ Hw)).
      rewrite Hid in IH. rewrite priced_cons.
      rewrite Hempty in Hshape. cbn [map] in Hshape.
      destruct Hshape as (gone & kept & Hsplit & Hcases).
      destruct Hcases as [[Hkept ->]|(p' & o & rest' & q & _ & Habs & _)]; [|discriminate].
      subst kept. rewrite app_nil_r in Hsplit. rewrite Hsplit.
      apply swept_prepend. exact IH.
    + apply fifo_empty_false in Hempty.
      rewrite (matchAgainstBook_filled _ _ _ (wo_stop _ _ _ _ _ _ Hw Hempty)).
      cbn [bw_trades bw_book]. rewrite app_nil_r, !priced_cons. cbn [Level_orders].
      apply swept_append; [|exact Hshape].
      destruct (lw_orders lw); [contradiction | discriminate].
Qed.

(** * [match] as a sweep of the opposite side *)

Lemma match_sweep b o :
  (match_ b o).1.1 =
    bw_trades (matchAgainstBook o (opposite_side (Order_side o) b) (orderLookup b)) /\
  (match_ b o).1.2 =
    bw_incoming (matchAgainstBook o (opposite_side (Order_side o) b) (orderLookup b)) /\
  opposite_side (Order_side o) (match_ b o).2 =
    bw_book (matchAgainstBook o (opposite_side (Order_side o) b) (orderLookup b)) /\
  own_side (Order_side o) (match_ b o).2 = own_side (Order_side o) b /\
  orderLookup (match_ b o).2 =
    bw_lookup (matchAgainstBook o (opposite_side (Order_side o) b) (orderLookup b)).
Proof. unfold match_. destruct (Order_side o); repeat split. Qed.

Lemma opposite_side_ok b s :
  book_inv b ->
  exists comp, Comparator comp /\
    comp = match s with Buy => less | Sell => greater end /\
    side_ok comp (nextNode b) (opposite_side s b).
Proof.
  intros [Hbids Hasks _ _ _]. destruct s; [exists less | exists greater];
    (split; [typeclasses eauto | split; [reflexivity | assumption]]).
Qed.

Lemma own_side_ok b s :
  book_inv b ->
  exists comp, Comparator comp /\
    comp = match s with Buy => greater | Sell => less end /\
    side_ok comp (nextNode b) (own_side s b).
Proof.
  intros [Hbids Hasks _ _ _]. destruct s; [exists greater | exists less];
    (split; [typeclasses eauto | split; [reflexivity | assumption]]).
Qed.

Lemma swept_nothing taker l : swept taker l [] l.
Proof. exists [], l. split; [reflexivity|]. left. split; reflexivity. Qed.

(** The trades of [addOrder] against the opposite side, and what is left of
    that side. *)
Lemma addOrder_swept b o :
  book_inv b -> u64 (Order_remainingQuantity o) ->
  swept (Order_id o) (priced (opposite_side (Order_side o) b))
    (addOrder b o).1 (priced (opposite_side (Order_side o) (addOrder b o).2)).
Proof.
  intros Hinv Hrem.
  destruct (orderLookup b !! Order_id o) as [loc|] eqn:Hlook.
  { rewrite addOrder_duplicate_eq by (rewrite Hlook; eauto). apply swept_nothing. }
  destruct (addOrder_new_parts b o Hinv Hrem Hlook) as (-> & _ & ->).
  destruct (match_sweep b o) as (-> & _ & -> & _).
  destruct (opposite_side_ok b (Order_side o) Hinv) as (comp & _ & _ & Hside).
  eapply matchAgainstBook_swept; eassumption.
Qed.

(** ** The limit price *)

Lemma matchLevel_prices p fifo : forall incoming tv lookup,
  Forall (fun t => Trade_price t = p) (lw_trades (matchLevel p fifo incoming tv lookup)).
Proof.
  induction fifo as [|[it bo] rest IH]; intros incoming tv lookup; [constructor|].
  cbn [matchLevel]. destruct (isFilled incoming); [constructor|].
  destruct (isFilled _); cbn [lw_trades]; (constructor; [reflexivity | apply IH]).
Qed.

Lemma matchLevel_incoming p fifo : forall incoming tv lookup,
  lw_incoming (matchLevel p fifo incoming tv lookup) =
  setRemaining incoming
    (Order_remainingQuantity (lw_incoming (matchLevel p fifo incoming tv lookup))).
Proof.
  induction fifo as [|[it bo] rest IH]; intros incoming tv lookup.
  - symmetry. apply setRemaining_same.
  - cbn [matchLevel]. destruct (isFilled incoming); [symmetry; apply setRemaining_same|].
    destruct (isFilled _); cbn [lw_incoming]; rewrite IH at 1; reflexivity.
Qed.

Lemma priceMatch_matchLevel p fifo incoming tv lookup k :
  priceMatch (lw_incoming (matchLevel p fifo incoming tv lookup)) k = priceMatch incoming k.
Proof. rewrite matchLevel_incoming. reflexivity. Qed.

Lemma matchAgainstBook_limit book : forall incoming lookup,
  Forall (fun t => priceMatch incoming (Trade_price t) = true)
    (bw_trades (matchAgainstBook incoming book lookup)).
Proof.
  induction book as [|[k level] rest IH]; intros incoming lookup; [constructor|].
  cbn [matchAgainstBook]. destruct (isFilled incoming); [constructor|].
  destruct (priceMatch incoming (Level_price level)) eqn:Hcross; cbn [negb]; [|constructor].
  assert (Hhere : Forall (fun t => priceMatch incoming (Trade_price t) = true)
            (lw_trades (matchLevel (Level_price level) (Level_orders level) incoming
                          (Level_totalVolume level) lookup))).
  { eapply Forall_impl; [apply matchLevel_prices|]. cbn beta. intros t ->. exact Hcross. }
  assert (Hlater : Forall (fun t => priceMatch incoming (Trade_price t) = true)
            (bw_trades
               (matchAgainstBook
                  (lw_incoming (matchLevel (Level_price level) (Level_orders level) incoming
                                  (Level_totalVolume level) lookup))
                  rest
                  (lw_lookup (matchLevel (Level_price level) (Level_orders level) incoming
                                (Level_totalVolume level) lookup))))).
  { eapply Forall_impl; [apply IH|]. cbn beta. intros t Ht.
    rewrite priceMatch_matchLevel in Ht. exact Ht. }
  destruct (fifo_empty _); cbn [bw_trades]; apply Forall_app; split; assumption.
Qed.

Lemma priceMatch_within_limit incoming p :
  priceMatch incoming p = true <-> within_limit incoming p.
Proof.
  unfold priceMatch, within_limit. destruct (Order_side incoming).
  - rewrite Z.geb_leb. apply Z.leb_le.
  - apply Z.leb_le.
Qed.

(** ** The traded volume *)

Lemma sum_remaining_nonneg fifo : Forall live fifo -> 0 <= sum_remaining fifo.
Proof.
  induction 1 as [|n f Hn _ IH]; [simpl; lia|].
  change (sum_remaining (n :: f)) with (Order_remainingQuantity n.2 + sum_remaining f).
  unfold live in Hn. lia.
Qed.

Lemma crossable_cons incoming k L book :
  crossable incoming ((k, L) :: book) =
  if priceMatch incoming k then (k, L) :: crossable incoming book
  else crossable incoming book.
Proof.
  unfold crossable. destruct (priceMatch incoming k) eqn:Hk.
  - rewrite filter_cons_True by exact Hk. reflexivity.
  - rewrite filter_cons_False by (cbn [fst]; congruence). reflexivity.
Qed.

Lemma crossable_nonneg incoming next book :
  Forall (fun kl => level_ok next kl.1 kl.2) book ->
  0 <= side_remaining (crossable incoming book).
Proof.
  induction 1 as [|[k L] rest HL _ IH]; [simpl; lia|].
  rewrite crossable_cons. destruct (priceMatch incoming k); [|exact IH].
  rewrite side_remaining_cons.
  pose proof (sum_remaining_nonneg _ (lo_remaining _ _ _ HL)) as Hhere.
  cbn [snd] in Hhere. lia.
Qed.

Lemma crossable_none incoming book :
  Forall (fun k => priceMatch incoming k = false) (keys book) ->
  crossable incoming book = [].
Proof.
  induction book as [|[k L] rest IH]; [reflexivity|].
  rewrite keys_cons. intros Hall. apply Forall_cons in Hall as [Hk Hrest].
  rewrite crossable_cons, Hk. apply IH, Hrest.
Qed.

Lemma crossable_matchLevel p fifo incoming tv lookup book :
  crossable (lw_incoming (matchLevel p fifo incoming tv lookup)) book =
  crossable incoming book.
Proof.
  induction book as [|[k L] rest IH]; [reflexivity|].
  rewrite !crossable_cons, priceMatch_matchLevel, IH. reflexivity.
Qed.

Lemma limit_closed_opposite incoming :
  limit_closed (match Order_side incoming with Buy => less | Sell => greater end) incoming.
Proof.
  unfold limit_closed, priceMatch. destruct (Order_side incoming); intros k k' Hk.
  - unfold less in Hk. apply Z.ltb_lt in Hk. rewrite !Z.geb_leb, !Z.leb_gt. lia.
  - unfold greater in Hk. rewrite Z.gtb_ltb in Hk. apply Z.ltb_lt in Hk.
    rewrite !Z.leb_gt. lia.
Qed.

Lemma matchAgainstBook_volume comp next book : forall incoming lookup,
  side_ok comp next book ->
  u64 (Order_remainingQuantity incoming) ->
  limit_closed comp incoming ->
  sum_quantity (bw_trades (matchAgainstBook incoming book lookup)) =
  Z.min (Order_remainingQuantity incoming) (side_remaining (crossable incoming book)).
Proof.
  induction book as [|[k level] rest IH]; intros incoming lookup Hside Hin Hclosed.
  - cbn. unfold u64 in Hin. lia.
  - destruct Hside as [Hord Hlevels].
    pose proof (crossable_nonneg incoming next _ Hlevels) as Hnonneg.
    apply Forall_cons in Hlevels as [Hlevel Hlevels]. cbn [fst snd] in Hlevel.
    pose proof (crossable_nonneg incoming next _ Hlevels) as Hnonneg_rest.
    destruct Hlevel as [Hprice Hnonempty Hlive Hvolume Hrefs Hfresh].
    apply ordered_by_cons in Hord as [Hbefore Hord].
    cbn [matchAgainstBook]. destruct (isFilled incoming) eqn:Hfilled.
    { apply isFilled_true in Hfilled. cbn [bw_trades sum_quantity foldr]. lia. }
    rewrite Hprice. rewrite crossable_cons in *.
    destruct (priceMatch incoming k) eqn:Hcross; cbn [negb].
    2:{ rewrite crossable_none.
        - cbn. unfold u64 in Hin. lia.
        - eapply Forall_impl; [exact Hbefore|]. cbn beta. intros k' Hk'.
          eapply Hclosed; eassumption. }
    rewrite side_remaining_cons in *.
    assert (Htv : u64 (Level_totalVolume level)) by (rewrite Hvolume; apply wrap64_range).
    rewrite <- Hprice.
    pose proof (matchLevel_ok (Level_price level) (Level_orders level) incoming
                  (Level_totalVolume level) lookup Hlive Hin Htv) as Hw.
    pose proof (crossable_matchLevel (Level_price level) (Level_orders level) incoming
                  (Level_totalVolume level) lookup rest) as Hsame.
    set (lw := matchLevel (Level_price level) (Level_orders level) incoming
                 (Level_totalVolume level) lookup) in *.
    destruct Hw as [_ Hl Hv Ht Hm Hi Hu Hs _].
    destruct (fifo_empty (lw_orders lw)) eqn:Hempty.
    + apply fifo_empty_true in Hempty. cbn [bw_trades].
      rewrite sum_quantity_app, IH; [|split; assumption | exact Hu |].
      * rewrite Hsame. rewrite Hempty in Hm. cbn [sum_remaining foldr] in Hm.
        unfold u64 in Hu. lia.
      * intros k1 k2 Hk Hrej. rewrite Hi in Hrej |- *.
        rewrite priceMatch_setRemaining in *. eapply Hclosed; eassumption.
    + apply fifo_empty_false in Hempty.
      rewrite (matchAgainstBook_filled _ _ _ (Hs Hempty)). cbn [bw_trades].
      rewrite app_nil_r.
      pose proof (Hs Hempty) as Hdone. apply isFilled_true in Hdone.
      pose proof (sum_remaining_nonneg _ Hl). lia.
Qed.

(** * Where resting orders are *)

Lemma priced_elem book k L (n : nat * Order) :
  (k, L) ∈ book -> n ∈ Level_orders L -> (k, n.2) ∈ priced book.
Proof.
  intros HkL Hn. unfold priced. apply list_elem_of_In, in_flat_map.
  exists (k, L). split; [apply list_elem_of_In, HkL|].
  cbn [fst snd]. apply in_map_iff. exists n. split; [reflexivity | apply list_elem_of_In, Hn].
Qed.

Lemma priced_inv book k o :
  (k, o) ∈ priced book ->
  exists L it, (k, L) ∈ book /\ (it, o) ∈ Level_orders L.
Proof.
  unfold priced. intros Hin. apply list_elem_of_In, in_flat_map in Hin.
  destruct Hin as ([k' L] & HkL & Hin). cbn [fst snd] in Hin.
  apply in_map_iff in Hin as ([it o'] & Heq & Hn). cbn [snd] in Heq.
  injection Heq as -> ->. exists L, it.
  split; apply list_elem_of_In; assumption.
Qed.

Lemma swept_Forall (P : Z * Order -> Prop) taker before trades after :
  (forall p o q, P (p, o) -> P (p, setRemaining o q)) ->
  swept taker before trades after -> Forall P before -> Forall P after.
Proof.
  intros Hstable (gone & kept & -> & Hcases) Hall.
  apply Forall_app in Hall as [_ Hkept].
  destruct Hcases as [[-> _]|(p & o & rest & q & -> & -> & _ & _)]; [exact Hkept|].
  apply Forall_cons in Hkept as [Ho Hrest]. constructor; [apply Hstable, Ho | exact Hrest].
Qed.

Section Placement.
Context (comp : Price -> Price -> bool) `{!Comparator comp}.

(** [addToBook] puts the order behind the orders of its level and moves no
    other order. *)
Lemma addToBook_priced o it book lookup :
  ordered_by comp book ->
  exists A B,
    priced book = A ++ B /\
    priced (addToBook comp o it book lookup).1 = A ++ (Order_price o, o) :: B.
Proof.
  intros Hord.
  destruct (addToBook_spec comp o it book lookup Hord) as (m1 & m2 & L & -> & _ & Hcases).
  exists (priced m1 ++ map (fun n : nat * Order => (Order_price o, n.2)) (Level_orders L)),
         (priced m2).
  split.
  - destruct Hcases as [->|[-> ->]].
    + rewrite priced_app, priced_cons, app_assoc. reflexivity.
    + rewrite priced_app. cbn [Level_default Level_orders map]. rewrite app_nil_r. reflexivity.
  - rewrite priced_app, priced_cons. unfold level_push. cbn [Level_orders].
    rewrite map_app. cbn [map snd]. rewrite <- !app_assoc. reflexivity.
Qed.

Lemma map_find_app_ne k p L m1 m2 :
  k <> p -> map_find k (m1 ++ (p, L) :: m2) = map_find k (m1 ++ m2).
Proof.
  intros Hne. induction m1 as [|[k' L'] m1 IH]; cbn [app map_find].
  - destruct (Z.eqb_spec k p); [contradiction | reflexivity].
  - destruct (k =? k'); [reflexivity | exact IH].
Qed.

(** The level [addToBook] leaves under the order's price is the level that
    was there, or [Level()], with the order pushed; other levels stay. *)
Lemma addToBook_level o it book lookup :
  ordered_by comp book ->
  map_find (Order_price o) (addToBook comp o it book lookup).1 =
    Some (level_push o it (default Level_default (map_find (Order_price o) book))) /\
  forall k, k <> Order_price o ->
    map_find k (addToBook comp o it book lookup).1 = map_find k book.
Proof.
  intros Hord.
  destruct (addToBook_spec comp o it book lookup Hord) as (m1 & m2 & L & -> & Hord' & Hcases).
  destruct (ordered_by_key_once comp _ _ _ _ Hord') as [Hk1 Hk2].
  split.
  - rewrite map_find_app by exact Hk1. f_equal. f_equal.
    destruct Hcases as [->|[-> ->]].
    + rewrite map_find_app by exact Hk1. reflexivity.
    + assert (Hnone : map_find (Order_price o) (m1 ++ m2) = None).
      { apply map_find_None. rewrite keys_app, elem_of_app. tauto. }
      rewrite Hnone. reflexivity.
  - intros k Hne. rewrite map_find_app_ne by exact Hne.
    destruct Hcases as [->|[-> _]]; [rewrite map_find_app_ne by exact Hne|]; reflexivity.
Qed.

(** The level [cancelOrder] leaves under the price of the cancelled order. *)
Lemma cancelInSide_level next s book orderId loc :
  side_ok comp next book ->
  (orderId, loc) ∈ side_entries s book ->
  exists L o,
    map_find (OrderLocation_price loc) book = Some L /\
    (OrderLocation_iterator loc, o) ∈ Level_orders L /\
    Order_id o = orderId /\
    0 < Order_remainingQuantity o /\
    (Level_orders L = [(OrderLocation_iterator loc, o)] ->
     map_find (OrderLocation_price loc) (cancelInSide loc book) = None) /\
    (Level_orders L <> [(OrderLocation_iterator loc, o)] ->
     map_find (OrderLocation_price loc) (cancelInSide loc book) =
       Some (mkLevel (Level_price L)
               (wrap64 (Level_totalVolume L - Order_remainingQuantity o))
               (list_erase (OrderLocation_iterator loc) (Level_orders L)))) /\
    (forall k, k <> OrderLocation_price loc ->
       map_find k (cancelInSide loc book) = map_find k book) /\
    (exists A B, priced book = A ++ (OrderLocation_price loc, o) :: B /\
                 priced (cancelInSide loc book) = A ++ B).
Proof.
  intros Hside Hin.
  destruct (cancelInSide_spec comp next s book orderId loc Hside Hin)
    as (m1 & L & m2 & f1 & o & f2 & -> & Hfifo & Hid & _ & ->).
  destruct Hside as [Hord Hlevels].
  destruct (ordered_by_key_once comp _ _ _ _ Hord) as [Hk1 Hk2].
  apply Forall_app in Hlevels as [_ Hlevels].
  apply Forall_cons in Hlevels as [[_ _ Hlive _ Hrefs _] _]. cbn [fst snd] in Hlive, Hrefs.
  rewrite Hfifo in Hlive, Hrefs.
  apply Forall_app in Hlive as [_ Hlive]. apply Forall_cons in Hlive as [Ho _].
  cbn [snd] in Ho. rewrite fmap_app, fmap_cons in Hrefs.
  apply list.NoDup_app in Hrefs as (_ & Hdisj & _).
  assert (Hit : OrderLocation_iterator loc ∉ f1.*1)
    by (intros Hit; apply (Hdisj _ Hit); left).
  exists L, o. rewrite map_find_app by exact Hk1. rewrite Hfifo.
  rewrite list_erase_app by exact Hit.
  assert (Hnone : map_find (OrderLocation_price loc) (m1 ++ m2) = None).
  { apply map_find_None. rewrite keys_app, elem_of_app. tauto. }
  split; [reflexivity|]. split; [rewrite elem_of_app; right; left|].
  split; [exact Hid|]. split; [lia|].
  split; [|split; [|split]].
  - intros Hone. destruct f1 as [|n1 f1]; [|destruct f1; discriminate].
    cbn [app] in Hone. injection Hone as ->. cbn [app fifo_empty]. exact Hnone.
  - intros Hmore. destruct (fifo_empty (f1 ++ f2)) eqn:Hempty.
    + apply fifo_empty_true, app_eq_nil in Hempty as [-> ->]. contradiction.
    + apply map_find_app, Hk1.
  - intros k Hne. rewrite (map_find_app_ne k _ L m1 m2 Hne).
    destruct (fifo_empty (f1 ++ f2)); [reflexivity|].
    apply map_find_app_ne, Hne.
  - exists (priced m1 ++ map (fun n : nat * Order => (OrderLocation_price loc, n.2)) f1),
           (map (fun n : nat * Order => (OrderLocation_price loc, n.2)) f2 ++ priced m2).
    split.
    + rewrite priced_app, priced_cons, Hfifo, map_app. cbn [map snd].
      rewrite <- !app_assoc. reflexivity.
    + destruct (fifo_empty (f1 ++ f2)) eqn:Hempty.
      * apply fifo_empty_true, app_eq_nil in Hempty as [-> ->].
        rewrite priced_app. cbn [map]. rewrite app_nil_r. reflexivity.
      * rewrite priced_app, priced_cons. cbn [Level_orders].
        rewrite map_app, <- !app_assoc. reflexivity.
Qed.
End Placement.

Lemma placed_setRemaining s (p : Z) o q :
  Order_side (p, o).2 = s /\ Order_price (p, o).2 = (p, o).1 ->
  Order_side (p, setRemaining o q).2 = s /\ Order_price (p, setRemaining o q).2 = (p, setRemaining o q).1.
Proof. intros H. exact H. Qed.

Lemma match_placed b o :
  book_inv b -> u64 (Order_remainingQuantity o) ->
  placed Buy (bids b) /\ placed Sell (asks b) ->
  placed Buy (bids (match_ b o).2) /\ placed Sell (asks (match_ b o).2).
Proof.
  intros Hinv Hrem [Hb Ha].
  destruct (match_sweep b o) as (_ & _ & Hopp & Hown & _).
  destruct (opposite_side_ok b (Order_side o) Hinv) as (comp & _ & _ & Hside).
  pose proof (matchAgainstBook_swept comp _ _ o (orderLookup b) Hside Hrem) as Hswept.
  rewrite <- Hopp in Hswept.
  destruct (Order_side o); cbn [opposite_side own_side] in *.
  - rewrite Hown. split; [exact Hb|].
    eapply swept_Forall; [|exact Hswept | exact Ha]. intros p o0 q. apply placed_setRemaining.
  - rewrite Hown. split; [|exact Ha].
    eapply swept_Forall; [|exact Hswept | exact Hb]. intros p o0 q. apply placed_setRemaining.
Qed.

Lemma rested_placed b1 o' :
  book_inv b1 ->
  placed Buy (bids b1) /\ placed Sell (asks b1) ->
  placed Buy (bids (rested o' b1)) /\ placed Sell (asks (rested o' b1)).
Proof.
  intros [Hbids Hasks _ _ _] [Hb Ha]. unfold rested.
  destruct (Order_side o') eqn:Hside; cbn [bids asks].
  - split; [|exact Ha].
    destruct (addToBook_priced greater o' (nextNode b1) (bids b1) (orderLookup b1)
                (proj1 Hbids)) as (A & B & Hbefore & Hafter).
    unfold placed in *. rewrite Hafter. rewrite Hbefore in Hb.
    apply Forall_app in Hb as [HA HB]. apply Forall_app. split; [exact HA|].
    constructor; [split; [exact Hside | reflexivity] | exact HB].
  - split; [exact Hb|].
    destruct (addToBook_priced less o' (nextNode b1) (asks b1) (orderLookup b1)
                (proj1 Hasks)) as (A & B & Hbefore & Hafter).
    unfold placed in *. rewrite Hafter. rewrite Hbefore in Ha.
    apply Forall_app in Ha as [HA HB]. apply Forall_app. split; [exact HA|].
    constructor; [split; [exact Hside | reflexivity] | exact HB].
Qed.

(** The book [addOrder] returns, by cases. *)
Lemma addOrder_book_cases b o :
  (addOrder b o).2 = b \/
  (addOrder b o).2 = (match_ b o).2 \/
  (isFilled (match_ b o).1.2 = false /\
   orderLookup b !! Order_id o = None /\
   (addOrder b o).2 = rested (match_ b o).1.2 (match_ b o).2).
Proof.
  rewrite addOrder_eq. cbn [snd].
  destruct (orderLookup b !! Order_id o) as [loc|] eqn:Hlook.
  - left. rewrite addOrder_run_duplicate by (rewrite Hlook; eauto). reflexivity.
  - right. rewrite (addOrder_run_new b o Hlook). cbn [snd].
    destruct (isFilled (match_ b o).1.2); [left; reflexivity | right; repeat split].
Qed.

Lemma cancelOrder_placed b orderId :
  book_inv b ->
  placed Buy (bids b) /\ placed Sell (asks b) ->
  placed Buy (bids (cancelOrder b orderId).2) /\ placed Sell (asks (cancelOrder b orderId).2).
Proof.
  intros Hinv [Hb Ha]. unfold cancelOrder.
  destruct (orderLookup b !! orderId) as [loc|] eqn:Hlook; [|split; assumption].
  pose proof (proj1 (inv_index b Hinv orderId loc) Hlook) as Hin.
  apply book_entries_side in Hin.
  destruct Hinv as [Hbids Hasks _ _ _].
  destruct (OrderLocation_side loc); cbn [own_side snd bids asks] in *.
  - split; [|exact Ha].
    destruct (cancelInSide_level greater _ _ _ _ _ Hbids Hin)
      as (L & o & _ & _ & _ & _ & _ & _ & _ & (A & B & Hbefore & Hafter)).
    unfold placed in *. rewrite Hafter. rewrite Hbefore in Hb.
    apply Forall_app in Hb as [HA HB]. apply Forall_cons in HB as [_ HB].
    apply Forall_app. split; assumption.
  - split; [exact Hb|].
    destruct (cancelInSide_level less _ _ _ _ _ Hasks Hin)
      as (L & o & _ & _ & _ & _ & _ & _ & _ & (A & B & Hbefore & Hafter)).
    unfold placed in *. rewrite Hafter. rewrite Hbefore in Ha.
    apply Forall_app in Ha as [HA HB]. apply Forall_cons in HB as [_ HB].
    apply Forall_app. split; assumption.
Qed.

Lemma reachable_placed b : reachable b -> placed Buy (bids b) /\ placed Sell (asks b).
Proof.
  induction 1 as [|b o Hreach IH Ho|b orderId Hreach IH].
  - split; constructor.
  - pose proof (reachable_inv b Hreach) as Hinv.
    destruct Ho as (_ & _ & _ & Hrem).
    destruct (addOrder_book_cases b o) as [->|[->|(_ & _ & ->)]].
    + exact IH.
    + apply match_placed; assumption.
    + apply rested_placed; [|apply match_placed; assumption].
      apply (mo_inv _ _ _ _ _ (match_inv b o Hinv Hrem)).
  - apply cancelOrder_placed; [apply reachable_inv|]; assumption.
Qed.

Lemma node_entry_elem s book k L (n : nat * Order) :
  (k, L) ∈ book -> n ∈ Level_orders L -> node_entry s k n ∈ side_entries s book.
Proof.
  intros HkL Hn. unfold side_entries. apply list_elem_of_In, in_flat_map.
  exists (k, L). split; [apply list_elem_of_In, HkL|].
  cbn [fst snd]. apply in_map, list_elem_of_In, Hn.
Qed.

Lemma priced_keys book k o : (k, o) ∈ priced book -> k ∈ keys book.
Proof.
  intros Hin. destruct (priced_inv _ _ _ Hin) as (L & it & HkL & _).
  unfold keys. apply list_elem_of_fmap. exists (k, L). split; [reflexivity | exact HkL].
Qed.

(** * Properties of the book beyond the invariant *)

(** ** The snapshots *)

(** X1. [getBids] lists strictly falling prices and [getAsks] strictly rising
    prices, in every reachable book. *)
Theorem snapshot_ordered (b : OrderBook) :
  reachable b ->
  StronglySorted Z.gt (map LevelInfo_price (getBids b)) /\
  StronglySorted Z.lt (map LevelInfo_price (getAsks b)).
Proof.
  intros Hreach. destruct (reachable_inv b Hreach) as [[Hb _] [Ha _] _ _ _].
  unfold getBids, getAsks. rewrite !levelInfos_prices. split.
  - eapply StronglySorted_weaken; [|exact Hb]. cbn beta. intros x y Hxy.
    unfold greater in Hxy. rewrite Z.gtb_ltb in Hxy. apply Z.ltb_lt in Hxy. lia.
  - eapply StronglySorted_weaken; [|exact Ha]. cbn beta. intros x y Hxy.
    unfold less in Hxy. apply Z.ltb_lt in Hxy. exact Hxy.
Qed.

Lemma snapshot_ordered_witness :
  StronglySorted Z.lt (map LevelInfo_price (getAsks sweep_book)).
Proof. apply (snapshot_ordered sweep_book sweep_book_reachable). Defined.

(** X2. In a reachable book every resting order lies on the side it names,
    in the level keyed by its own price, whose [price] member is that key, and
    the index maps its id to that side, that price and its node. *)
Theorem resting_orders_placed (b : OrderBook) (s : Side) (k : Z) (L : Level)
    (it : nat) (o : Order) :
  reachable b ->
  (k, L) ∈ own_side s b ->
  (it, o) ∈ Level_orders L ->
  Order_side o = s /\ Order_price o = k /\ Level_price L = k /\
  orderLookup b !! Order_id o = Some (mkOrderLocation s k it).
Proof.
  intros Hreach HkL Hn.
  pose proof (reachable_inv b Hreach) as Hinv.
  destruct (reachable_placed b Hreach) as [Hb Ha].
  assert (Hplaced : placed s (own_side s b)) by (destruct s; assumption).
  unfold placed in Hplaced. rewrite Forall_forall in Hplaced.
  destruct (Hplaced (k, o) (priced_elem _ _ _ (it, o) HkL Hn)) as [Hside Hprice].
  split; [exact Hside|]. split; [exact Hprice|]. split.
  - destruct (own_side_ok b s Hinv) as (comp & _ & _ & [_ Hlevels]).
    rewrite Forall_forall in Hlevels. apply (lo_price _ _ _ (Hlevels _ HkL)).
  - apply (inv_index b Hinv). unfold book_entries.
    pose proof (node_entry_elem s _ _ _ (it, o) HkL Hn) as Hentry.
    rewrite elem_of_app. destruct s; [left | right]; exact Hentry.
Qed.

Lemma resting_orders_placed_witness :
  Order_side (newOrder 3 Sell 101 4) = Sell /\
  Order_price (newOrder 3 Sell 101 4) = 101 /\
  Level_price (mkLevel 101 4 [(2%nat, newOrder 3 Sell 101 4)]) = 101 /\
  orderLookup sweep_book !! Order_id (newOrder 3 Sell 101 4) =
    Some (mkOrderLocation Sell 101 2%nat).
Proof.
  apply (resting_orders_placed sweep_book Sell 101
           (mkLevel 101 4 [(2%nat, newOrder 3 Sell 101 4)]) 2%nat (newOrder 3 Sell 101 4)
           sweep_book_reachable).
  - assert (Hasks : own_side Sell sweep_book =
        [(100, mkLevel 100 5 [(0%nat, newOrder 1 Sell 100 2); (1%nat, newOrder 2 Sell 100 3)]);
         (101, mkLevel 101 4 [(2%nat, newOrder 3 Sell 101 4)])])
      by (vm_compute; reflexivity).
    rewrite Hasks. right. left.
  - left.
Defined.

(** X3. The prices [getBids] and [getAsks] report are exactly the prices of
    the orders resting on that side: no level is reported without an order
    and no resting order is missing from the snapshot. *)
Theorem snapshot_prices_are_resting_prices (b : OrderBook) (p : Z) :
  reachable b ->
  (p ∈ map LevelInfo_price (getBids b) <->
   exists o, o ∈ resting (bids b) /\ Order_price o = p) /\
  (p ∈ map LevelInfo_price (getAsks b) <->
   exists o, o ∈ resting (asks b) /\ Order_price o = p).
Proof.
  intros Hreach. pose proof (reachable_inv b Hreach) as Hinv.
  destruct (reachable_placed b Hreach) as [Hb Ha].
  assert (Hgen : forall s comp book,
            side_ok comp (nextNode b) book -> placed s book ->
            (p ∈ keys book <-> exists o, o ∈ resting book /\ Order_price o = p)).
  { intros s comp book [_ Hlevels] Hplaced. unfold placed in Hplaced.
    rewrite Forall_forall in Hlevels. rewrite Forall_forall in Hplaced. split.
    - intros Hp. unfold keys in Hp. apply list_elem_of_fmap in Hp as ([k L] & -> & HkL).
      pose proof (lo_nonempty _ _ _ (Hlevels _ HkL)) as Hne. cbn [fst snd] in *.
      destruct (Level_orders L) as [|[it o] f] eqn:Hfifo; [contradiction|].
      assert (Hin : (k, o) ∈ priced book).
      { apply (priced_elem _ _ _ (it, o) HkL). rewrite Hfifo. left. }
      exists o. split; [|apply (Hplaced _ Hin)].
      rewrite <- priced_resting. apply list_elem_of_fmap. exists (k, o). split; [reflexivity|exact Hin].
    - intros (o & Ho & Hprice). rewrite <- priced_resting in Ho.
      apply list_elem_of_fmap in Ho as ([k o'] & -> & Hin). cbn [snd] in Hprice.
      destruct (Hplaced _ Hin) as [_ Hk]. cbn [fst snd] in Hk.
      rewrite <- Hprice, Hk. eapply priced_keys, Hin. }
  unfold getBids, getAsks. rewrite !levelInfos_prices. split.
  - apply (Hgen Buy greater); [apply Hinv | exact Hb].
  - apply (Hgen Sell less); [apply Hinv | exact Ha].
Qed.

Lemma snapshot_prices_are_resting_prices_witness :
  100 ∈ map LevelInfo_price (getAsks sweep_book) <->
  exists o, o ∈ resting (asks sweep_book) /\ Order_price o = 100.
Proof. apply (snapshot_prices_are_resting_prices sweep_book 100 sweep_book_reachable). Defined.

(** ** The index *)

(** X4. No two resting orders of a reachable book share an id, across both
    sides. *)
Theorem resting_ids_unique (b : OrderBook) :
  reachable b -> NoDup (map Order_id (resting (bids b) ++ resting (asks b))).
Proof.
  intros Hreach. rewrite <- book_entries_ids. apply (inv_ids b (reachable_inv b Hreach)).
Qed.

Lemma resting_ids_unique_witness :
  NoDup (map Order_id (resting (bids sweep_book) ++ resting (asks sweep_book))).
Proof. apply (resting_ids_unique sweep_book sweep_book_reachable). Defined.

(** ** Matching *)

(** X5. The trades of one [addOrder] take the resting orders of the opposite
    side in priority order, best price first and first come first within a
    price: a first run of them is filled completely, one trade each for all
    the order has left, at most the next one is filled in part, and every
    order behind keeps its place and its remaining quantity. *)
Theorem trades_fill_in_priority_order (b : OrderBook) (o : Order) :
  reachable b -> u64_order o ->
  swept (Order_id o) (priced (opposite_side (Order_side o) b))
    (addOrder b o).1 (priced (opposite_side (Order_side o) (addOrder b o).2)).
Proof.
  intros Hreach (_ & _ & _ & Hrem).
  apply addOrder_swept; [apply reachable_inv, Hreach | exact Hrem].
Qed.

Lemma trades_fill_in_priority_order_witness :
  swept 4 (priced (asks sweep_book))
    (addOrder sweep_book (newOrder 4 Buy 101 8)).1
    (priced (asks (addOrder sweep_book (newOrder 4 Buy 101 8)).2)).
Proof.
  apply (trades_fill_in_priority_order sweep_book (newOrder 4 Buy 101 8) sweep_book_reachable).
  apply u64_order_small; unfold u64, U64_MODULUS; lia.
Defined.

Lemma resting_elem_priced book o :
  o ∈ resting book <-> exists k, (k, o) ∈ priced book.
Proof.
  rewrite <- priced_resting, list_elem_of_fmap. split.
  - intros ([k o'] & -> & Hin). exists k. exact Hin.
  - intros (k & Hin). exists (k, o). split; [reflexivity | exact Hin].
Qed.

Lemma swept_shrinks taker before trades after po :
  swept taker before trades after -> po ∈ after ->
  exists o0, (po.1, o0) ∈ before /\
    po.2 = setRemaining o0 (Order_remainingQuantity po.2) /\
    Order_remainingQuantity po.2 <= Order_remainingQuantity o0.
Proof.
  intros (gone & kept & -> & Hcases) Hin.
  destruct Hcases as [[-> _]|(p & o & rest & q & -> & -> & Hq & _)].
  - exists po.2. split; [|split; [symmetry; apply setRemaining_same | lia]].
    rewrite elem_of_app. right. destruct po. exact Hin.
  - apply elem_of_cons in Hin as [->|Hin].
    + exists o. cbn [fst snd setRemaining Order_remainingQuantity].
      split; [|split; [reflexivity | lia]].
      rewrite elem_of_app. right. left.
    + exists po.2. split; [|split; [symmetry; apply setRemaining_same | lia]].
      rewrite elem_of_app. right. right. destruct po. exact Hin.
Qed.

(** X6. Every order resting after [addOrder] is an order that was resting
    before on the same side, or the incoming order, and differs from it at
    most in a remaining quantity that is not larger. *)
Theorem resting_orders_only_shrink (b : OrderBook) (o o1 : Order) (s : Side) :
  reachable b -> u64_order o ->
  o1 ∈ resting (own_side s (addOrder b o).2) ->
  (exists o0, o0 ∈ resting (own_side s b) /\
     o1 = setRemaining o0 (Order_remainingQuantity o1) /\
     Order_remainingQuantity o1 <= Order_remainingQuantity o0) \/
  (s = Order_side o /\
   o1 = setRemaining o (Order_remainingQuantity o1) /\
   Order_remainingQuantity o1 <= Order_remainingQuantity o).
Proof.
  intros Hreach (_ & _ & _ & Hrem) Hin.
  pose proof (reachable_inv b Hreach) as Hinv.
  assert (Hsame : forall book, o1 ∈ resting book ->
            exists o0, o0 ∈ resting book /\
              o1 = setRemaining o0 (Order_remainingQuantity o1) /\
              Order_remainingQuantity o1 <= Order_remainingQuantity o0).
  { intros book H. exists o1. split; [exact H|].
    split; [symmetry; apply setRemaining_same | lia]. }
  destruct (decide (s = Order_side o)) as [->|Hother].
  - (* the side the order rests on *)
    destruct (addOrder_book_cases b o) as [Heq|[Heq|(Hopen & Hnew & Heq)]];
      rewrite Heq in Hin.
    + left. apply Hsame, Hin.
    + left. destruct (match_sweep b o) as (_ & _ & _ & Hown & _).
      rewrite Hown in Hin. apply Hsame, Hin.
    + destruct (match_residual b o Hinv Hrem) as (Hincoming & Hu64 & _).
      destruct (match_sweep b o) as (_ & _ & _ & Hown & _).
      pose proof (mo_inv _ _ _ _ _ (match_inv b o Hinv Hrem)) as Hinv1.
      assert (Hside : Order_side (match_ b o).1.2 = Order_side o)
        by (rewrite Hincoming; reflexivity).
      assert (Hpriced : exists A B,
                priced (own_side (Order_side o) (match_ b o).2) = A ++ B /\
                priced (own_side (Order_side o) (rested (match_ b o).1.2 (match_ b o).2)) =
                  A ++ (Order_price (match_ b o).1.2, (match_ b o).1.2) :: B).
      { unfold rested. rewrite Hside. destruct Hinv1 as [[Hb _] [Ha _] _ _ _].
        destruct (Order_side o); cbn [own_side bids asks].
        - apply (addToBook_priced greater), Hb.
        - apply (addToBook_priced less), Ha. }
      destruct Hpriced as (A & B & Hbefore & Hafter).
      apply resting_elem_priced in Hin as (k & Hin). rewrite Hafter in Hin.
      rewrite elem_of_app, elem_of_cons in Hin.
      assert (Hold : (k, o1) ∈ A ++ B -> o1 ∈ resting (own_side (Order_side o) b)).
      { intros H. rewrite <- Hbefore, Hown in H. apply resting_elem_priced. eauto. }
      destruct Hin as [Hin|[Hin|Hin]].
      * left. apply Hsame, Hold. rewrite elem_of_app. tauto.
      * right. injection Hin as _ ->. split; [reflexivity|].
        split; [exact Hincoming|].
        destruct (match_inv b o Hinv Hrem) as [_ _ _ (comp & Hsweep & _) _].
        pose proof (so_taker _ _ _ _ _ _ Hsweep) as Htaker.
        pose proof (so_trades _ _ _ _ _ _ Hsweep) as Htrades.
        cbn [bw_trades bw_incoming] in Htaker, Htrades.
        assert (0 <= sum_quantity (match_ b o).1.1).
        { clear -Htrades. induction Htrades as [|t ts (_ & Hq & _) _ IH]; simpl; [lia|].
          fold (sum_quantity ts). lia. }
        lia.
      * left. apply Hsame, Hold. rewrite elem_of_app. tauto.
  - (* the side the order matches against *)
    assert (Hs : own_side s = opposite_side (Order_side o)).
    { destruct s, (Order_side o); try reflexivity; contradiction. }
    rewrite Hs in *.
    apply resting_elem_priced in Hin as (k & Hin).
    destruct (swept_shrinks _ _ _ _ (k, o1) (addOrder_swept b o Hinv Hrem) Hin)
      as (o0 & Hin0 & Heq & Hle).
    left. exists o0. split; [apply resting_elem_priced; eauto|]. split; assumption.
Qed.

Lemma resting_orders_only_shrink_witness :
  (exists o0, o0 ∈ resting (own_side Sell sweep_book) /\
     setRemaining (newOrder 3 Sell 101 4) 1 =
       setRemaining o0 (Order_remainingQuantity (setRemaining (newOrder 3 Sell 101 4) 1)) /\
     Order_remainingQuantity (setRemaining (newOrder 3 Sell 101 4) 1) <=
       Order_remainingQuantity o0) \/
  (Sell = Order_side (newOrder 4 Buy 101 8) /\
   setRemaining (newOrder 3 Sell 101 4) 1 =
     setRemaining (newOrder 4 Buy 101 8)
       (Order_remainingQuantity (setRemaining (newOrder 3 Sell 101 4) 1)) /\
   Order_remainingQuantity (setRemaining (newOrder 3 Sell 101 4) 1) <=
     Order_remainingQuantity (newOrder 4 Buy 101 8)).
Proof.
  apply (resting_orders_only_shrink sweep_book (newOrder 4 Buy 101 8)
           (setRemaining (newOrder 3 Sell 101 4) 1) Sell sweep_book_reachable).
  - apply u64_order_small; unfold u64, U64_MODULUS; lia.
  - assert (Hrest : resting (own_side Sell (addOrder sweep_book (newOrder 4 Buy 101 8)).2) =
                    [setRemaining (newOrder 3 Sell 101 4) 1]) by (vm_compute; reflexivity).
    rewrite Hrest. left.
Defined.

Lemma addOrder_new_trades b o :
  orderLookup b !! Order_id o = None ->
  (addOrder b o).1 =
    bw_trades (matchAgainstBook o (opposite_side (Order_side o) b) (orderLookup b)).
Proof.
  intros Hnone. rewrite addOrder_eq, (addOrder_run_new b o Hnone). cbn [fst].
  apply match_sweep.
Qed.

(** X7. An order with a new id trades as much as it can: the traded quantity
    is the smaller of its remaining quantity and the quantity resting in the
    levels of the opposite side that its limit price admits. *)
Theorem traded_volume (b : OrderBook) (o : Order) :
  reachable b -> u64_order o ->
  orderLookup b !! Order_id o = None ->
  sum_quantity (addOrder b o).1 =
  Z.min (Order_remainingQuantity o)
        (side_remaining (crossable o (opposite_side (Order_side o) b))).
Proof.
  intros Hreach (_ & _ & _ & Hrem) Hnone.
  pose proof (reachable_inv b Hreach) as Hinv.
  rewrite (addOrder_new_trades b o Hnone).
  destruct (opposite_side_ok b (Order_side o) Hinv) as (comp & _ & Hcomp & Hside).
  eapply matchAgainstBook_volume; [exact Hside | exact Hrem|].
  rewrite Hcomp. apply limit_closed_opposite.
Qed.

Lemma traded_volume_witness :
  sum_quantity (addOrder sweep_book (newOrder 4 Buy 100 8)).1 =
  Z.min (Order_remainingQuantity (newOrder 4 Buy 100 8))
        (side_remaining (crossable (newOrder 4 Buy 100 8)
                           (opposite_side (Order_side (newOrder 4 Buy 100 8)) sweep_book))).
Proof.
  apply (traded_volume sweep_book (newOrder 4 Buy 100 8) sweep_book_reachable).
  - apply u64_order_small; unfold u64, U64_MODULUS; lia.
  - vm_compute. reflexivity.
Defined.

(** X8. No trade is made at a price beyond the limit of the incoming order:
    a Buy never pays more than its price and a Sell never receives less, in
    any state of the book. *)
Theorem trades_within_limit (b : OrderBook) (o : Order) :
  Forall (fun t => within_limit o (Trade_price t)) (addOrder b o).1.
Proof.
  destruct (orderLookup b !! Order_id o) as [loc|] eqn:Hlook.
  - rewrite addOrder_duplicate_eq by (rewrite Hlook; eauto). constructor.
  - rewrite (addOrder_new_trades b o Hlook).
    eapply Forall_impl; [apply matchAgainstBook_limit|].
    cbn beta. intros t Ht. apply priceMatch_within_limit, Ht.
Qed.

Lemma maker_indexed b s k L (n : nat * Order) :
  book_inv b -> (k, L) ∈ opposite_side s b -> n ∈ Level_orders L ->
  is_Some (orderLookup b !! Order_id n.2).
Proof.
  intros Hinv HkL Hn.
  assert (Hentry : exists s', node_entry s' k n ∈ book_entries b).
  { unfold book_entries. destruct s; cbn [opposite_side] in HkL.
    - exists Sell. rewrite elem_of_app. right. eapply node_entry_elem; eassumption.
    - exists Buy. rewrite elem_of_app. left. eapply node_entry_elem; eassumption. }
  destruct Hentry as (s' & Hentry). apply (inv_index b Hinv) in Hentry. eauto.
Qed.

Lemma sum_quantity_nonneg ts :
  Forall (fun t => 0 < Trade_quantity t) ts -> 0 <= sum_quantity ts.
Proof.
  induction 1 as [|t ts Ht _ IH]; [simpl; lia|].
  change (sum_quantity (t :: ts)) with (Trade_quantity t + sum_quantity ts). lia.
Qed.

(** X9. Every trade of an [addOrder] on a reachable book names the incoming
    order as taker and an order then held by the index as maker, never the
    same id twice, and has a positive quantity; together the trades take no
    more than the incoming order had. *)
Theorem trades_well_formed (b : OrderBook) (o : Order) :
  reachable b -> u64_order o ->
  Forall (fun t =>
            Trade_takerOrderId t = Order_id o /\
            0 < Trade_quantity t /\
            is_Some (orderLookup b !! Trade_makerOrderId t) /\
            Trade_makerOrderId t <> Trade_takerOrderId t)
         (addOrder b o).1 /\
  sum_quantity (addOrder b o).1 <= Order_remainingQuantity o.
Proof.
  intros Hreach (_ & _ & _ & Hrem). pose proof (reachable_inv b Hreach) as Hinv.
  destruct (orderLookup b !! Order_id o) as [loc|] eqn:Hlook.
  { rewrite addOrder_duplicate_eq by (rewrite Hlook; eauto).
    split; [constructor | unfold u64 in Hrem; simpl; lia]. }
  destruct (addOrder_new_parts b o Hinv Hrem Hlook) as (-> & _ & _).
  destruct (match_inv b o Hinv Hrem) as [_ _ _ (comp & Hsweep & _) _].
  destruct Hsweep as [_ _ _ Htaker _ _ Hu64 _ Htrades _].
  cbn [bw_trades bw_incoming] in *. split.
  - eapply Forall_impl; [exact Htrades|]. cbn beta.
    intros t (Htk & Hq & L & HL & _ & Hmaker).
    apply list_elem_of_In, in_map_iff in Hmaker as (o0 & Hid & Ho0).
    apply list_elem_of_In, list_elem_of_fmap in Ho0 as (n & -> & Hn).
    assert (Hidx : is_Some (orderLookup b !! Trade_makerOrderId t)).
    { rewrite <- Hid. eapply maker_indexed; eassumption. }
    repeat split; try assumption.
    rewrite Htk. intros Heq. rewrite Heq, Hlook in Hidx. destruct Hidx as [x Hx].
    discriminate.
  - unfold u64 in Hu64. lia.
Qed.

Lemma trades_well_formed_witness :
  Forall (fun t =>
            Trade_takerOrderId t = Order_id (newOrder 4 Buy 101 8) /\
            0 < Trade_quantity t /\
            is_Some (orderLookup sweep_book !! Trade_makerOrderId t) /\
            Trade_makerOrderId t <> Trade_takerOrderId t)
         (addOrder sweep_book (newOrder 4 Buy 101 8)).1 /\
  sum_quantity (addOrder sweep_book (newOrder 4 Buy 101 8)).1 <=
    Order_remainingQuantity (newOrder 4 Buy 101 8).
Proof.
  apply (trades_well_formed sweep_book (newOrder 4 Buy 101 8) sweep_book_reachable).
  apply u64_order_small; unfold u64, U64_MODULUS; lia.
Defined.

(** ** Resting *)

(** X10. What is left of an order with a new id after matching is its
    remaining quantity less the traded sum.  When nothing is left the order
    does not rest: its own side is as before and the index has no entry for
    it.  Otherwise it is pushed behind the orders of the level under its
    price on its own side (a new level when there was none), the volume of
    that level grows by the remainder modulo 2^64, no other level of that side
    changes, and the index maps its id to its side, price and node. *)
Theorem residual_rests_at_tail (b : OrderBook) (o : Order) :
  reachable b -> u64_order o ->
  orderLookup b !! Order_id o = None ->
  let o' := (addOrder_run b o).1.2 in
  let b' := (addOrder b o).2 in
  let before := default Level_default (map_find (Order_price o) (own_side (Order_side o) b)) in
  o' = setRemaining o (Order_remainingQuantity o - sum_quantity (addOrder b o).1) /\
  (Order_remainingQuantity o' = 0 ->
   own_side (Order_side o) b' = own_side (Order_side o) b /\
   orderLookup b' !! Order_id o = None) /\
  (Order_remainingQuantity o' <> 0 ->
   exists it L,
     orderLookup b' !! Order_id o =
       Some (mkOrderLocation (Order_side o) (Order_price o) it) /\
     map_find (Order_price o) (own_side (Order_side o) b') = Some L /\
     Level_price L = Order_price o /\
     Level_orders L = Level_orders before ++ [(it, o')] /\
     Level_totalVolume L =
       wrap64 (Level_totalVolume before + Order_remainingQuantity o') /\
     forall k, k <> Order_price o ->
       map_find k (own_side (Order_side o) b') = map_find k (own_side (Order_side o) b)).
Proof.
  intros Hreach (_ & _ & _ & Hrem) Hnone. cbv zeta.
  pose proof (reachable_inv b Hreach) as Hinv.
  destruct (match_inv b o Hinv Hrem) as [Hinv1 _ Hown (comp & Hsweep & _) Habsent].
  specialize (Habsent Hnone).
  pose proof (so_taker _ _ _ _ _ _ Hsweep) as Htaker.
  pose proof (so_incoming _ _ _ _ _ _ Hsweep) as Hincoming.
  cbn [bw_trades bw_incoming] in Htaker, Hincoming.
  rewrite addOrder_eq, (addOrder_run_new b o Hnone). cbn [fst snd].
  set (o' := (match_ b o).1.2) in *. set (b1 := (match_ b o).2) in *.
  assert (Hside : Order_side o' = Order_side o) by (rewrite Hincoming; reflexivity).
  assert (Hprice : Order_price o' = Order_price o) by (rewrite Hincoming; reflexivity).
  assert (Hid : Order_id o' = Order_id o) by (rewrite Hincoming; reflexivity).
  split; [rewrite Hincoming at 1; f_equal; lia|]. split.
  - intros Hzero. apply isFilled_true in Hzero. rewrite Hzero. split; assumption.
  - intros Hopen. apply isFilled_false in Hopen. rewrite Hopen.
    exists (nextNode b1).
    assert (Hlevel : exists comp', Comparator comp' /\
              ordered_by comp' (own_side (Order_side o) b1) /\
              Forall (fun kl => level_ok (nextNode b1) kl.1 kl.2) (own_side (Order_side o) b1) /\
              own_side (Order_side o) (rested o' b1) =
                (addToBook comp' o' (nextNode b1) (own_side (Order_side o) b1) (orderLookup b1)).1 /\
              orderLookup (rested o' b1) =
                (addToBook comp' o' (nextNode b1) (own_side (Order_side o) b1) (orderLookup b1)).2).
    { unfold rested. rewrite Hside. destruct Hinv1 as [[Hb Hlb] [Ha Hla] _ _ _].
      destruct (Order_side o); cbn [own_side bids asks orderLookup];
        [exists greater | exists less]; (split; [typeclasses eauto | repeat split; assumption]). }
    destruct Hlevel as (comp' & Hcomp' & Hord & Hlevels & -> & ->).
    destruct (addToBook_level comp' o' (nextNode b1) _ (orderLookup b1) Hord) as [Hfind Hothers].
    rewrite Hprice in Hfind, Hothers. rewrite Hown in Hfind, Hothers, Hlevels |- *.
    eexists. split; [|split; [exact Hfind|]].
    + unfold addToBook. cbn [snd]. unfold lookup_insert_new.
      rewrite Hid, Habsent, lookup_insert_eq, Hside, Hprice. reflexivity.
    + split; [|split; [reflexivity | split; [reflexivity | exact Hothers]]].
      unfold level_push. cbn [Level_price]. rewrite Hprice.
      destruct (Level_totalVolume _ =? 0) eqn:Hvol; [reflexivity|].
      destruct (map_find (Order_price o) (own_side (Order_side o) b)) as [L0|] eqn:Hfind0.
      * apply map_find_split in Hfind0 as (m1 & m2 & Hsplit & _).
        rewrite Hsplit in Hlevels.
        apply Forall_app in Hlevels as [_ Hlevels].
        apply Forall_cons in Hlevels as [HL0 _]. apply (lo_price _ _ _ HL0).
      * cbn in Hvol. discriminate.
Qed.

Lemma residual_rests_at_tail_witness :
  exists it L,
    orderLookup (addOrder one_bid_book (newOrder 2 Buy 100 7)).2 !! 2 =
      Some (mkOrderLocation Buy 100 it) /\
    map_find 100 (bids (addOrder one_bid_book (newOrder 2 Buy 100 7)).2) = Some L /\
    Level_orders L = [(0%nat, newOrder 1 Buy 100 5); (it, newOrder 2 Buy 100 7)] /\
    Level_totalVolume L = 12.
Proof.
  assert (Ho : u64_order (newOrder 2 Buy 100 7))
    by (apply u64_order_small; unfold u64, U64_MODULUS; lia).
  assert (Hnone : orderLookup one_bid_book !! Order_id (newOrder 2 Buy 100 7) = None)
    by (vm_compute; reflexivity).
  destruct (residual_rests_at_tail one_bid_book (newOrder 2 Buy 100 7)
              one_bid_book_reachable Ho Hnone) as (Hres & _ & Hrest).
  assert (Hrun : (addOrder_run one_bid_book (newOrder 2 Buy 100 7)).1.2 = newOrder 2 Buy 100 7)
    by (vm_compute; reflexivity).
  rewrite Hrun in Hrest.
  destruct Hrest as (it & L & Hidx & Hfind & _ & Horders & Hvol & _); [discriminate|].
  exists it, L. repeat split; assumption.
Defined.

(** ** Cancellation, level by level *)

(** X11. A successful [cancelOrder] on a reachable book finds the order in
    the level under the indexed price on the indexed side.  When it is the
    only order there the level is gone afterwards; otherwise the level keeps
    its price, loses that node and has its volume debited by the order's
    remaining quantity modulo 2^64.  No other level of that side and nothing
    of the other side changes. *)
Theorem cancel_level_effect (b : OrderBook) (orderId : Z) (loc : OrderLocation) :
  reachable b ->
  orderLookup b !! orderId = Some loc ->
  let s := OrderLocation_side loc in
  let p := OrderLocation_price loc in
  let it := OrderLocation_iterator loc in
  let b' := (cancelOrder b orderId).2 in
  exists L o,
    map_find p (own_side s b) = Some L /\
    (it, o) ∈ Level_orders L /\
    Order_id o = orderId /\
    (Level_orders L = [(it, o)] -> map_find p (own_side s b') = None) /\
    (Level_orders L <> [(it, o)] ->
     map_find p (own_side s b') =
       Some (mkLevel (Level_price L)
               (wrap64 (Level_totalVolume L - Order_remainingQuantity o))
               (list_erase it (Level_orders L)))) /\
    (forall k, k <> p -> map_find k (own_side s b') = map_find k (own_side s b)) /\
    opposite_side s b' = opposite_side s b.
Proof.
  intros Hreach Hlook. cbv zeta. pose proof (reachable_inv b Hreach) as Hinv.
  pose proof (proj1 (inv_index b Hinv orderId loc) Hlook) as Hin.
  apply book_entries_side in Hin.
  destruct (own_side_ok b (OrderLocation_side loc) Hinv) as (comp & Hcomp & _ & Hside).
  destruct (cancelInSide_level comp _ _ _ _ _ Hside Hin)
    as (L & o & Hfind & Hnode & Hid & _ & Hone & Hmore & Hothers & _).
  assert (Hbook : own_side (OrderLocation_side loc) (cancelOrder b orderId).2 =
                  cancelInSide loc (own_side (OrderLocation_side loc) b) /\
                  opposite_side (OrderLocation_side loc) (cancelOrder b orderId).2 =
                  opposite_side (OrderLocation_side loc) b).
  { unfold cancelOrder. rewrite Hlook.
    destruct (OrderLocation_side loc); split; reflexivity. }
  destruct Hbook as [-> ->].
  exists L, o. repeat split; assumption.
Qed.

Lemma cancel_level_effect_witness :
  exists L o,
    map_find 100 (asks sweep_book) = Some L /\
    (1%nat, o) ∈ Level_orders L /\
    Order_id o = 2 /\
    (Level_orders L <> [(1%nat, o)] ->
     map_find 100 (asks (cancelOrder sweep_book 2).2) =
       Some (mkLevel (Level_price L)
               (wrap64 (Level_totalVolume L - Order_remainingQuantity o))
               (list_erase 1%nat (Level_orders L)))) /\
    bids (cancelOrder sweep_book 2).2 = bids sweep_book.
Proof.
  assert (Hlook : orderLookup sweep_book !! 2 = Some (mkOrderLocation Sell 100 1%nat))
    by (vm_compute; reflexivity).
  destruct (cancel_level_effect sweep_book 2 (mkOrderLocation Sell 100 1%nat)
              sweep_book_reachable Hlook)
    as (L & o & Hfind & Hnode & Hid & _ & Hmore & _ & Hopp).
  exists L, o. repeat split; assumption.
Defined.

(** * The worker loop *)

Lemma run_cons e cmd rest :
  running e = true -> Command_type cmd <> Stop ->
  run e (cmd :: rest) =
    ((processCommand e cmd).1 ++ (run (processCommand e cmd).2 rest).1,
     (run (processCommand e cmd).2 rest).2).
Proof.
  intros Hrun Hstop. cbn [run]. rewrite Hrun.
  destruct (processCommand e cmd) as [events e'] eqn:Hstep. cbn [fst snd].
  destruct (run e' rest) as [later e''].
  destruct (Command_type cmd); [reflexivity | reflexivity | contradiction].
Qed.

(** X12. The worker applies the commands in front of the first [Stop] in
    queue order and nothing behind it: what was submitted after [stop()] has
    no effect and fires no callback. *)
Theorem run_stops_at_stop (e : MatchingEngine) (front back : list Command) (stop : Command) :
  Forall (fun cmd => Command_type cmd <> Stop) front ->
  Command_type stop = Stop ->
  run e (front ++ stop :: back) = run e front.
Proof.
  intros Hfront Hstop. revert e.
  induction Hfront as [|cmd front Hcmd _ IH]; intros e.
  - cbn [app run]. rewrite Hstop. destruct (running e); reflexivity.
  - destruct (running e) eqn:Hrun.
    + cbn [app]. rewrite !run_cons by assumption. rewrite IH. reflexivity.
    + cbn [app run]. rewrite Hrun. reflexivity.
Qed.

Lemma run_stops_at_stop_witness :
  run (startedEngine true true)
    [AddCommand (newOrder 1 Buy 100 5); StopCommand; AddCommand (newOrder 2 Sell 100 5)] =
  run (startedEngine true true) [AddCommand (newOrder 1 Buy 100 5)].
Proof.
  apply (run_stops_at_stop (startedEngine true true) [AddCommand (newOrder 1 Buy 100 5)]
           [AddCommand (newOrder 2 Sell 100 5)] StopCommand).
  - constructor; [discriminate | constructor].
  - reflexivity.
Defined.

(** X13. The worker keeps the book reachable: from a reachable book, any
    queue of commands with [uint64_t] orders leaves a reachable book, so every
    property of reachable books holds at each callback. *)
Theorem run_reachable (e : MatchingEngine) (queue : list Command) :
  reachable (orderBook e) ->
  Forall u64_command queue ->
  reachable (orderBook (run e queue).2).
Proof.
  intros Hreach Hqueue. revert e Hreach.
  induction Hqueue as [|cmd queue Hcmd _ IH]; intros e Hreach; [exact Hreach|].
  cbn [run]. destruct (running e); [|exact Hreach].
  assert (Hstep : reachable (orderBook (processCommand e cmd).2)).
  { unfold processCommand, u64_command in *.
    destruct (Command_type cmd), (Command_order cmd) as [o|], (Command_orderId cmd) as [i|];
      cbn [snd orderBook]; try exact Hreach.
    - pose proof (reachable_add _ o Hreach (Hcmd o eq_refl)) as H.
      destruct (addOrder (orderBook e) o). exact H.
    - pose proof (reachable_add _ o Hreach (Hcmd o eq_refl)) as H.
      destruct (addOrder (orderBook e) o). exact H.
    - pose proof (reachable_cancel _ i Hreach) as H.
      destruct (cancelOrder (orderBook e) i). exact H.
    - pose proof (reachable_cancel _ i Hreach) as H.
      destruct (cancelOrder (orderBook e) i). exact H. }
  destruct (Command_type cmd) eqn:Htype; try exact Hreach.
  - destruct (processCommand e cmd) as [events e'].
    specialize (IH e' Hstep). destruct (run e' queue). exact IH.
  - destruct (processCommand e cmd) as [events e'].
    specialize (IH e' Hstep). destruct (run e' queue). exact IH.
Qed.

Lemma run_reachable_witness :
  reachable (orderBook (run (startedEngine true true)
                          [AddCommand (newOrder 1 Buy 100 5); CancelCommand 1]).2).
Proof.
  apply (run_reachable (startedEngine true true)).
  - apply reachable_empty.
  - constructor; [|constructor; [|constructor]].
    + intros o [= <-]. apply u64_order_small; unfold u64, U64_MODULUS; lia.
    + intros o H. discriminate.
Defined.

(** ** The events of one command *)

(** X14. One command fires at most one trade event and at most one
    book-update event, the trade event first.  A trade event comes only from
    an Add, carries all the trades [addOrder] returned, never an empty list,
    and is followed by the book-update event whenever that callback is set. *)
Theorem command_events (e : MatchingEngine) (cmd : Command) :
  (processCommand e cmd).1 = [] \/
  (processCommand e cmd).1 = [BookUpdateEvent] \/
  exists o,
    Command_type cmd = Add /\ Command_order cmd = Some o /\
    (addOrder (orderBook e) o).1 <> [] /\
    onTrade e = true /\
    ((onBookUpdate e = true /\
      (processCommand e cmd).1 =
        [TradeEvent (addOrder (orderBook e) o).1; BookUpdateEvent]) \/
     (onBookUpdate e = false /\
      (processCommand e cmd).1 = [TradeEvent (addOrder (orderBook e) o).1])).
Proof.
  unfold processCommand.
  destruct (Command_type cmd) eqn:Htype, (Command_order cmd) as [o|] eqn:Horder,
           (Command_orderId cmd) as [i|] eqn:Hid;
    try (left; destruct (onBookUpdate e); reflexivity).
  1,2: destruct (addOrder (orderBook e) o) as [trades b'] eqn:Hadd; cbn [fst snd];
       destruct trades as [|t ts], (onTrade e) eqn:Ht, (isFilled o),
                (onBookUpdate e) eqn:Hb; cbn [negb andb app];
       first [ left; reflexivity
             | right; left; reflexivity
             | right; right; exists o; rewrite Hadd; cbn [fst];
               split; [reflexivity|]; split; [reflexivity|];
               split; [discriminate|]; split; [reflexivity|];
               first [ left; split; reflexivity | right; split; reflexivity ] ].
  1,2: destruct (cancelOrder (orderBook e) i) as [found b'];
       destruct found, (onBookUpdate e); cbn [andb app fst];
       first [ left; reflexivity | right; left; reflexivity ].
Qed.

(** ** When the book changed *)

Lemma addOrder_filled_eq b o :
  isFilled o = true -> addOrder b o = ([], b).
Proof.
  intros Hfilled. rewrite addOrder_eq.
  destruct (orderLookup b !! Order_id o) as [loc|] eqn:Hlook.
  - rewrite addOrder_run_duplicate by (rewrite Hlook; eauto). reflexivity.
  - rewrite (addOrder_run_new b o Hlook). cbn [fst snd].
    unfold match_. destruct (Order_side o);
      rewrite (matchAgainstBook_filled _ _ _ Hfilled); cbn [fst snd bw_trades bw_incoming];
      rewrite Hfilled; destruct b; reflexivity.
Qed.

(** What an accepted order with a positive quantity changes. *)
Lemma addOrder_new_changes b o :
  book_inv b -> u64 (Order_remainingQuantity o) ->
  orderLookup b !! Order_id o = None ->
  Order_remainingQuantity o <> 0 ->
  is_Some (orderLookup (addOrder b o).2 !! Order_id o) \/
  side_remaining (opposite_side (Order_side o) (addOrder b o).2) <>
  side_remaining (opposite_side (Order_side o) b).
Proof.
  intros Hinv Hrem Hnone Hqty.
  destruct (match_inv b o Hinv Hrem) as [Hinv1 _ _ (comp & Hsweep & _) Habsent].
  specialize (Habsent Hnone).
  pose proof (so_taker _ _ _ _ _ _ Hsweep) as Htaker.
  pose proof (so_makers _ _ _ _ _ _ Hsweep) as Hmakers.
  pose proof (so_incoming _ _ _ _ _ _ Hsweep) as Hincoming.
  cbn [bw_trades bw_incoming bw_book] in *.
  destruct (addOrder_new_parts b o Hinv Hrem Hnone) as (_ & _ & ->).
  rewrite addOrder_eq, (addOrder_run_new b o Hnone). cbn [snd].
  destruct (isFilled (match_ b o).1.2) eqn:Hfilled.
  - right. apply isFilled_true in Hfilled. lia.
  - left. unfold rested.
    assert (Hid : Order_id (match_ b o).1.2 = Order_id o) by (rewrite Hincoming; reflexivity).
    destruct (Order_side (match_ b o).1.2); cbn [orderLookup];
      unfold addToBook, lookup_insert_new; cbn [snd];
      rewrite Hid, Habsent, lookup_insert_eq; eauto.
Qed.

Lemma book_state_lookup b b' i :
  orderLookup b' !! i <> orderLookup b !! i -> book_state b' <> book_state b.
Proof. unfold book_state. intros Hne Heq. apply Hne. injection Heq as _ _ ->. reflexivity. Qed.

Lemma book_state_side b b' s :
  side_remaining (opposite_side s b') <> side_remaining (opposite_side s b) ->
  book_state b' <> book_state b.
Proof.
  unfold book_state. intros Hne Heq. apply Hne. injection Heq as Hb Ha _.
  destruct s; cbn [opposite_side]; congruence.
Qed.

(** X15. With the book-update callback set, a command other than an Add
    whose id the index already holds fires the book-update event exactly when
    it changed a side or the index of a reachable book. *)
Theorem book_update_iff_changed (e : MatchingEngine) (cmd : Command) :
  reachable (orderBook e) ->
  u64_command cmd ->
  onBookUpdate e = true ->
  (forall o, Command_type cmd = Add -> Command_order cmd = Some o ->
             orderLookup (orderBook e) !! Order_id o = None) ->
  (BookUpdateEvent ∈ (processCommand e cmd).1 <->
   book_state (orderBook (processCommand e cmd).2) <> book_state (orderBook e)).
Proof.
  intros Hreach Hu64 Hcb Hnew. pose proof (reachable_inv _ Hreach) as Hinv.
  assert (Hquiet : BookUpdateEvent ∈ @nil Event <-> book_state (orderBook e) <> book_state (orderBook e)).
  { split; [intros H; inversion H | intros H; contradiction]. }
  assert (Hadd : forall o, Command_type cmd = Add -> Command_order cmd = Some o ->
    let '(trades, book') := addOrder (orderBook e) o in
    BookUpdateEvent ∈
      (if negb (match trades with [] => true | _ => false end) && onTrade e
       then [TradeEvent trades] else []) ++
      (if (if negb (isFilled o) then true
           else negb (match trades with [] => true | _ => false end)) && onBookUpdate e
       then [BookUpdateEvent] else []) <->
    book_state book' <> book_state (orderBook e)).
  { intros o Htype Horder.
    destruct (Hu64 o Horder) as (_ & _ & _ & Hrem).
    specialize (Hnew o Htype Horder).
    destruct (isFilled o) eqn:Hfilled.
    - rewrite (addOrder_filled_eq _ _ Hfilled). cbn [negb andb app]. exact Hquiet.
    - apply isFilled_false in Hfilled.
      pose proof (addOrder_new_changes _ o Hinv Hrem Hnew Hfilled) as Hchanged.
      destruct (addOrder (orderBook e) o) as [trades book']. cbn [negb snd] in *.
      rewrite Hcb. cbn [andb]. split.
      + intros _. destruct Hchanged as [Hidx|Hside].
        * apply (book_state_lookup _ _ (Order_id o)). rewrite Hnew.
          destruct Hidx as [x ->]. discriminate.
        * eapply book_state_side, Hside.
      + intros _. rewrite elem_of_app. right. left. }
  unfold processCommand.
  destruct (Command_type cmd) eqn:Htype, (Command_order cmd) as [o|] eqn:Horder,
           (Command_orderId cmd) as [i|] eqn:Hid; cbn [fst snd orderBook app];
    try exact Hquiet.
  1,2: specialize (Hadd o eq_refl eq_refl);
       destruct (addOrder (orderBook e) o) as [trades book']; cbn [fst snd orderBook];
       exact Hadd.
  1,2: unfold cancelOrder;
       destruct (orderLookup (orderBook e) !! i) as [loc|] eqn:Hlook;
       [ destruct (OrderLocation_side loc); cbn [fst snd orderBook app]; rewrite Hcb;
         cbn [andb]; (split; [intros _ | intros _; left]);
         apply (book_state_lookup _ _ i); cbn [orderLookup];
         rewrite lookup_delete_eq, Hlook; discriminate
       | cbn [fst snd orderBook app andb]; exact Hquiet ].
Qed.

Lemma book_update_iff_changed_witness :
  BookUpdateEvent ∈
    (processCommand (startedEngine true true) (AddCommand (newOrder 1 Buy 100 5))).1 <->
  book_state (orderBook (processCommand (startedEngine true true)
                           (AddCommand (newOrder 1 Buy 100 5))).2) <>
  book_state (orderBook (startedEngine true true)).
Proof.
  apply (book_update_iff_changed (startedEngine true true) (AddCommand (newOrder 1 Buy 100 5))).
  - apply reachable_empty.
  - intros o [= <-]. apply u64_order_small; unfold u64, U64_MODULUS; lia.
  - reflexivity.
  - intros o _ [= <-]. reflexivity.
Defined.

(** ** Orders that do not trade *)

Lemma matchLevel_trades p it bo rest incoming tv lookup :
  isFilled incoming = false ->
  lw_trades (matchLevel p ((it, bo) :: rest) incoming tv lookup) <> [].
Proof.
  intros Hopen. cbn [matchLevel]. rewrite Hopen. cbv zeta.
  destruct (isFilled (setRemaining bo _)); cbn [lw_trades]; discriminate.
Qed.

(** The sweep makes no trade exactly when the first level of the side does
    not cross the order, and then it touches nothing. *)
Lemma matchAgainstBook_no_trade comp next book incoming lookup :
  side_ok comp next book ->
  isFilled incoming = false ->
  (bw_trades (matchAgainstBook incoming book lookup) = [] <-> head_uncrossed incoming book) /\
  (head_uncrossed incoming book ->
   matchAgainstBook incoming book lookup = mkBookWalk [] incoming book lookup).
Proof.
  intros [_ Hlevels] Hopen. destruct book as [|[k level] rest].
  - split; [split; [intros _; exact I | reflexivity] | reflexivity].
  - apply Forall_cons in Hlevels as [[Hprice Hne _ _ _ _] _]. cbn [fst snd] in *.
    cbn [matchAgainstBook head_uncrossed]. rewrite Hopen, Hprice.
    destruct (priceMatch incoming k) eqn:Hcross; cbn [negb].
    + split; [|discriminate]. split; [|discriminate].
      destruct (Level_orders level) as [|[it bo] f] eqn:Hfifo; [contradiction|].
      pose proof (matchLevel_trades k it bo f incoming (Level_totalVolume level) lookup Hopen)
        as Htrades.
      destruct (fifo_empty _); cbn [bw_trades]; intros Hnil;
        apply app_eq_nil in Hnil as [Hnil _]; contradiction.
    + split; [split; reflexivity | reflexivity].
Qed.

Lemma match_no_trade b o :
  book_inv b -> isFilled o = false ->
  ((match_ b o).1.1 = [] <-> head_uncrossed o (opposite_side (Order_side o) b)) /\
  (head_uncrossed o (opposite_side (Order_side o) b) -> match_ b o = ([], o, b)).
Proof.
  intros Hinv Hopen.
  destruct (opposite_side_ok b (Order_side o) Hinv) as (comp & _ & _ & Hside).
  destruct (matchAgainstBook_no_trade comp _ _ o (orderLookup b) Hside Hopen) as [Hiff Hstay].
  destruct (match_sweep b o) as (Htrades & _).
  split; [rewrite Htrades; exact Hiff|].
  intros Hhead. specialize (Hstay Hhead). unfold match_.
  destruct (Order_side o); cbn [opposite_side] in Hstay; rewrite Hstay;
    cbn [bw_trades bw_incoming bw_book bw_lookup]; destruct b; reflexivity.
Qed.

(** X16. An order with a new id and a positive quantity trades if and only if
    its limit admits the price of the first level of the opposite side; on an
    empty opposite side it never trades. *)
Theorem trades_iff_crosses_best (b : OrderBook) (o : Order) :
  reachable b ->
  orderLookup b !! Order_id o = None ->
  Order_remainingQuantity o <> 0 ->
  ((addOrder b o).1 = [] <-> head_uncrossed o (opposite_side (Order_side o) b)).
Proof.
  intros Hreach Hnone Hqty. apply isFilled_false in Hqty.
  rewrite addOrder_eq, (addOrder_run_new b o Hnone). cbn [fst].
  apply match_no_trade; [apply reachable_inv, Hreach | exact Hqty].
Qed.

Lemma trades_iff_crosses_best_witness :
  (addOrder sweep_book (newOrder 4 Buy 99 8)).1 = [] <->
  head_uncrossed (newOrder 4 Buy 99 8)
    (opposite_side (Order_side (newOrder 4 Buy 99 8)) sweep_book).
Proof.
  apply (trades_iff_crosses_best sweep_book (newOrder 4 Buy 99 8) sweep_book_reachable).
  - vm_compute. reflexivity.
  - discriminate.
Defined.

(** ** Cancel after add *)

Section CancelAfterPush.
Context (comp : Price -> Price -> bool) `{!Comparator comp}.

Lemma cancel_after_push next s book lookup o :
  side_ok comp next book ->
  cancelInSide (mkOrderLocation s (Order_price o) next)
    (addToBook comp o next book lookup).1 = book.
Proof.
  intros [Hord Hlevels].
  destruct (addToBook_spec comp o next book lookup Hord)
    as (m1 & m2 & L & -> & Hord' & Hcases).
  destruct (ordered_by_key_once comp _ _ _ _ Hord') as [Hk1 _].
  assert (Hfresh : next ∉ (Level_orders L).*1).
  { destruct Hcases as [->|[_ ->]]; [|apply not_elem_of_nil].
    apply Forall_app in Hlevels as [_ Hlevels].
    apply Forall_cons in Hlevels as [HL _]. cbn [fst snd] in HL.
    pose proof (lo_fresh _ _ _ HL) as Hall. rewrite Forall_forall in Hall.
    intros Hin. specialize (Hall _ Hin). lia. }
  assert (Horders : Level_orders (level_push o next L) = Level_orders L ++ [(next, o)])
    by reflexivity.
  assert (Hpushed_price : Level_price (level_push o next L) =
            if Level_totalVolume L =? 0 then Order_price o else Level_price L)
    by reflexivity.
  assert (Hpushed_volume : Level_totalVolume (level_push o next L) =
            wrap64 (Level_totalVolume L + Order_remainingQuantity o))
    by reflexivity.
  unfold cancelInSide.
  cbn [OrderLocation_price OrderLocation_iterator].
  rewrite map_find_app by exact Hk1.
  rewrite Horders, Hpushed_price, Hpushed_volume.
  rewrite node_deref_app by exact Hfresh.
  rewrite list_erase_app by exact Hfresh. rewrite app_nil_r. cbn [Level_orders].
  destruct Hcases as [->|[-> ->]].
  - apply Forall_app in Hlevels as [_ Hlevels].
    apply Forall_cons in Hlevels as [HL _]. cbn [fst snd] in HL.
    destruct HL as [Hprice Hne _ Hvol _ _].
    apply fifo_empty_false in Hne. rewrite Hne.
    rewrite map_update_app by exact Hk1. do 2 f_equal.
    assert (Hp : (if Level_totalVolume L =? 0 then Order_price o else Level_price L) =
                 Level_price L) by (destruct (_ =? _); congruence).
    assert (Hv : wrap64 (wrap64 (Level_totalVolume L + Order_remainingQuantity o) -
                         Order_remainingQuantity o) = Level_totalVolume L).
    { rewrite wrap64_sub_wrap.
      replace (Level_totalVolume L + Order_remainingQuantity o - Order_remainingQuantity o)
        with (Level_totalVolume L) by lia.
      apply wrap64_u64. rewrite Hvol. apply wrap64_range. }
    rewrite Hp, Hv. destruct L; reflexivity.
  - cbn [Level_default Level_orders fifo_empty]. apply map_erase_app, Hk1.
Qed.
End CancelAfterPush.

(** X17. Cancel undoes an add that did not trade: on a reachable book, when
    [addOrder] of an order with a new id and a positive quantity returns no
    trade, [cancelOrder] of that id returns true and gives back both sides and
    the index exactly as they were before the add. *)
Theorem cancel_undoes_resting_add (b : OrderBook) (o : Order) :
  reachable b ->
  orderLookup b !! Order_id o = None ->
  Order_remainingQuantity o <> 0 ->
  (addOrder b o).1 = [] ->
  (cancelOrder (addOrder b o).2 (Order_id o)).1 = true /\
  book_state (cancelOrder (addOrder b o).2 (Order_id o)).2 = book_state b.
Proof.
  intros Hreach Hnone Hqty Hquiet. pose proof (reachable_inv b Hreach) as Hinv.
  apply isFilled_false in Hqty.
  destruct (match_no_trade b o Hinv Hqty) as [Hiff Hstay].
  rewrite addOrder_eq, (addOrder_run_new b o Hnone) in Hquiet. cbn [fst] in Hquiet.
  specialize (Hstay (proj1 Hiff Hquiet)).
  rewrite addOrder_eq, (addOrder_run_new b o Hnone), Hstay. cbn [fst snd]. rewrite Hqty.
  assert (Hidx : orderLookup (rested o b) =
                 <[Order_id o := mkOrderLocation (Order_side o) (Order_price o) (nextNode b)]>
                   (orderLookup b)).
  { unfold rested. destruct (Order_side o) eqn:Hside; cbn [orderLookup];
      unfold addToBook, lookup_insert_new; cbn [snd]; rewrite Hnone, Hside; reflexivity. }
  unfold cancelOrder. rewrite Hidx, lookup_insert_eq.
  cbn [OrderLocation_side]. unfold book_state.
  destruct Hinv as [Hbids Hasks _ _ _].
  destruct (Order_side o) eqn:Hside; cbn [fst snd bids asks orderLookup];
    (split; [reflexivity|]); rewrite delete_insert_eq, (delete_id _ _ Hnone);
    unfold rested; rewrite Hside; cbn [bids asks].
  - rewrite (cancel_after_push greater _ Buy _ _ _ Hbids). reflexivity.
  - rewrite (cancel_after_push less _ Sell _ _ _ Hasks). reflexivity.
Qed.

Lemma cancel_undoes_resting_add_witness :
  (cancelOrder (addOrder sweep_book (newOrder 4 Buy 99 8)).2 4).1 = true /\
  book_state (cancelOrder (addOrder sweep_book (newOrder 4 Buy 99 8)).2 4).2 =
    book_state sweep_book.
Proof.
  apply (cancel_undoes_resting_add sweep_book (newOrder 4 Buy 99 8) sweep_book_reachable).
  - vm_compute. reflexivity.
  - discriminate.
  - vm_compute. reflexivity.
Defined.
